(** * C-drive cleaner: the scanning engine ([c_drive_cleaner/scanner.py])

    A shallow embedding of [Scanner] and of the traversals it runs, and
    the properties of the scanning engine proved over it.

    Conventions of the embedding.
    - A Python [str] is a [string] (its UTF-8 bytes); [lower] and [upper]
      change the ASCII letters only.
    - A Python [int] is a [Z]; [time.time()] and [st_mtime] are taken in
      whole clock ticks, so [now - mtime > threshold] is integer
      arithmetic.
    - The progress percentage is computed, as in the source, in binary64
      floating point ([PrimFloat]).
    - The file system is a finite tree of [node]s; the ways an entry can
      fail ([os.scandir] or [entry.stat()] raising [OSError]) are part of
      the tree.  Exceptions of other kinds are not modelled.
    - [self._cancelled] may be set by another thread while a scan runs:
      the [Flag] carries, next to the field itself, the number of reads
      of the flag after which that external [cancel()] lands. *)

From Stdlib Require Import ZArith Floats Uint63 Ascii String.
From Stdlib Require Import Sorted.
From stdpp Require Import gmap strings list.

#[local] Open Scope string_scope.
#[local] Open Scope list_scope.
#[local] Open Scope Z_scope.
#[local] Set Warnings "-register-all,-clear-no-such-hyp".

(** ** Strings *)

Module Str.

Definition is_upper (c : ascii) : bool :=
  ((65 <=? nat_of_ascii c) && (nat_of_ascii c <=? 90))%nat.

Definition is_lower (c : ascii) : bool :=
  ((97 <=? nat_of_ascii c) && (nat_of_ascii c <=? 122))%nat.

Definition lower_char (c : ascii) : ascii :=
  if is_upper c then ascii_of_nat (nat_of_ascii c + 32) else c.

Definition upper_char (c : ascii) : ascii :=
  if is_lower c then ascii_of_nat (nat_of_ascii c - 32) else c.

Fixpoint map (f : ascii -> ascii) (s : string) : string :=
  match s with
  | EmptyString => EmptyString
  | String c t => String (f c) (map f t)
  end.

(** [s.lower()] and [s.upper()] *)
Definition lower : string -> string := map lower_char.
Definition upper : string -> string := map upper_char.

(** [s.startswith(p)] *)
Fixpoint startswith (s p : string) {struct p} : bool :=
  match p, s with
  | EmptyString, _ => true
  | String a p', String b s' => Ascii.eqb a b && startswith s' p'
  | String _ _, EmptyString => false
  end.

(** [p in s] *)
Fixpoint contains (s p : string) : bool :=
  startswith s p ||
  match s with
  | EmptyString => false
  | String _ s' => contains s' p
  end.

(** [s.replace(c, "")] for a one-character [c] *)
Fixpoint remove_char (c : ascii) (s : string) : string :=
  match s with
  | EmptyString => EmptyString
  | String a t => if Ascii.eqb a c then remove_char c t else String a (remove_char c t)
  end.

(** [s[n:]] *)
Fixpoint drop (n : nat) (s : string) : string :=
  match n, s with
  | O, _ => s
  | S n', String _ t => drop n' t
  | S _, EmptyString => EmptyString
  end.

(** [x in xs] for a list of strings *)
Definition mem (x : string) (xs : list string) : bool :=
  existsb (String.eqb x) xs.

Definition last_char (s : string) : option ascii :=
  match String.length s with
  | O => None
  | S n => String.get n s
  end.

End Str.

(** ** Paths ([os.path.join], [pathlib.Path.suffix]) *)

Module Path.

Definition is_sep (c : ascii) : bool :=
  Ascii.eqb c "\" || Ascii.eqb c "/".

(** [os.path.join(directory, name)] for an entry name, which holds no
    separator and no drive: the separator is added unless [directory]
    already ends in one.  (Bare drives and UNC roots are not told apart.) *)
Definition join (directory name : string) : string :=
  match Str.last_char directory with
  | None => name
  | Some c => if is_sep c then directory +:+ name else directory +:+ "\" +:+ name
  end.

Fixpoint has_sep (p : string) : bool :=
  match p with
  | EmptyString => false
  | String c t => is_sep c || has_sep t
  end.

(** [Path(p).name]: what follows the last separator *)
Fixpoint name (p : string) : string :=
  match p with
  | EmptyString => EmptyString
  | String c t =>
      if has_sep t then name t
      else if is_sep c then t else p
  end.

(** [s[i:]] for the last [i] with [s[i] = "."] *)
Fixpoint last_dot_tail (s : string) : option string :=
  match s with
  | EmptyString => None
  | String c t =>
      match last_dot_tail t with
      | Some r => Some r
      | None => if Ascii.eqb c "." then Some s else None
      end
  end.

(** [Path(p).suffix]: with [i = name.rfind(".")], [name[i:]] when
    [0 < i < len(name) - 1], and the empty string otherwise *)
Definition suffix (p : string) : string :=
  match name p with
  | EmptyString => EmptyString
  | String _ t =>
      match last_dot_tail t with
      | Some r => if (1 <? String.length r)%nat then r else EmptyString
      | None => EmptyString
      end
  end.

End Path.

(** ** The file system *)

(** What [os.scandir] yields for one entry, with symbolic links not
    followed.
    - [File st_size]: a regular file of [st_size] bytes; [st_size = None]
      when [entry.stat()] raises [OSError].
    - [Dir st_mtime listable entries]: a directory; [st_mtime = None]
      when [entry.stat()] raises, [listable = false] when [os.scandir]
      on it raises; [entries] are its entries in listing order, by name.
    - [Other]: a symbolic link, or anything that is neither a regular
      file nor a directory. *)
Inductive node : Type :=
  | File (st_size : option N)
  | Dir (st_mtime : option Z) (listable : bool) (entries : list (string * node))
  | Other.

(** ** Scan results *)

Record ScanResult : Type := mkScanResult {
  item_id : string;
  item_name : string;
  total_size : Z;
  file_count : Z;
  files : list string;
  error : option string
}.

(** [ScanResult(item_id=.., item_name=..)] *)
Definition new_result (id name : string) : ScanResult :=
  {| item_id := id; item_name := name; total_size := 0; file_count := 0;
     files := []; error := None |}.

(** [result.total_size += size; result.file_count += 1;
     result.files.append(path)] *)
Definition count (result : ScanResult) (size : Z) (path : string) : ScanResult :=
  {| item_id := item_id result; item_name := item_name result;
     total_size := total_size result + size;
     file_count := file_count result + 1;
     files := files result ++ [path];
     error := error result |}.

Definition set_error (result : ScanResult) (msg : string) : ScanResult :=
  {| item_id := item_id result; item_name := item_name result;
     total_size := total_size result; file_count := file_count result;
     files := files result; error := Some msg |}.

(** ** The cancellation flag *)

(** [_cancelled] is the field of the scanner; [pending_cancel = Some k]
    says that a [cancel()] issued from outside lands after [k] further
    reads of the flag, [None] that none arrives. *)
Record Flag : Type := mkFlag {
  _cancelled : bool;
  pending_cancel : option nat
}.

(** One read of [self._cancelled]: the value seen, and the flag after
    it.  Nothing but [scan_all] ever clears the flag, so once it is set
    what the outside still has pending no longer matters. *)
Definition read_cancelled (fl : Flag) : bool * Flag :=
  if _cancelled fl then (true, fl) else
  match pending_cancel fl with
  | Some O => (true, {| _cancelled := true; pending_cancel := None |})
  | Some (S k) => (false, {| _cancelled := false; pending_cancel := Some k |})
  | None => (false, fl)
  end.

(** ** The generic directory scanner *)

(** [extensions] is set and the file's suffix is not in it *)
Definition ext_excluded (extensions : option (list string)) (path : string) : bool :=
  match extensions with
  | Some ((_ :: _) as exts) => negb (Str.mem (Str.lower (Path.suffix path)) exts)
  | _ => false
  end.

(** [pattern and pattern.lower() not in path.lower()] *)
Definition pattern_excluded (pattern : option string) (path : string) : bool :=
  match pattern with
  | Some ((String _ _) as p) => negb (Str.contains (Str.lower path) (Str.lower p))
  | _ => false
  end.

Section scan_entries.
Variable rec : node -> string -> option string -> Flag -> ScanResult -> Flag * ScanResult.
Variable directory : string.
Variable extensions : option (list string).
Variable pattern : option string.

(** The loop over [os.scandir(directory)] in [_scan_directory]. *)
Fixpoint scan_entries (es : list (string * node)) (fl : Flag) (result : ScanResult)
  : Flag * ScanResult :=
  match es with
  | [] => (fl, result)
  | (name, entry) :: rest =>
      let '(c, fl) := read_cancelled fl in
      if c then (fl, result) else
      let path := Path.join directory name in
      match entry with
      | File st_size =>
          if ext_excluded extensions path then scan_entries rest fl result
          else if pattern_excluded pattern path then scan_entries rest fl result
          else match st_size with
               | Some size => scan_entries rest fl (count result (Z.of_N size) path)
               | None => scan_entries rest fl result
               end
      | Dir _ _ _ =>
          let '(fl, result) :=
            if pattern_excluded pattern path
            then rec entry path pattern fl result
            else rec entry path None fl result in
          scan_entries rest fl result
      | Other => scan_entries rest fl result
      end
  end.
End scan_entries.

(** [Scanner._scan_directory]; [n] is what lies at [directory]. *)
Fixpoint _scan_directory (n : node) (directory : string)
    (extensions : option (list string)) (pattern : option string)
    (fl : Flag) (result : ScanResult) {struct n} : Flag * ScanResult :=
  match n with
  | Dir _ true es =>
      scan_entries (fun e p pat => _scan_directory e p extensions pat)
        directory extensions pattern es fl result
  | _ => (fl, result)
  end.

(** ** Sizes of matched directories *)

Section size_entries.
Variable rec : node -> Z.

(** The loop of [_get_dir_size_for_scan]. *)
Fixpoint size_entries (es : list (string * node)) (total : Z) : Z :=
  match es with
  | [] => total
  | (_, entry) :: rest =>
      match entry with
      | File (Some size) => size_entries rest (total + Z.of_N size)
      | File None => size_entries rest total
      | Dir _ _ _ => size_entries rest (total + rec entry)
      | Other => size_entries rest total
      end
  end.
End size_entries.

(** [Scanner._get_dir_size_for_scan] *)
Fixpoint _get_dir_size_for_scan (n : node) : Z :=
  match n with
  | Dir _ true es => size_entries _get_dir_size_for_scan es 0
  | _ => 0
  end.

(** ** The developer-junk scanner *)

Section depth_entries.
Variable DEVELOPER_CLEAN_RULES : list string.
Variable rec : node -> string -> Flag -> ScanResult -> Flag * ScanResult.
Variable path : string.
Variables now threshold : Z.
Variable skip_dirs : list string.

(** The loop over [os.scandir(path)] in [_depth_search]. *)
Fixpoint depth_entries (es : list (string * node)) (fl : Flag) (result : ScanResult)
  : Flag * ScanResult :=
  match es with
  | [] => (fl, result)
  | (name, entry) :: rest =>
      let '(c, fl) := read_cancelled fl in
      if c then (fl, result) else
      let entry_path := Path.join path name in
      match entry with
      | Dir st_mtime _ _ =>
          let name_lower := Str.lower name in
          let descend fl result :=
            if Str.mem name_lower skip_dirs || Str.startswith name "."
            then depth_entries rest fl result
            else let '(fl, result) := rec entry entry_path fl result in
                 depth_entries rest fl result in
          if Str.mem name_lower DEVELOPER_CLEAN_RULES then
            match st_mtime with
            | None => depth_entries rest fl result
            | Some mtime =>
                if threshold <? now - mtime
                then depth_entries rest fl
                       (count result (_get_dir_size_for_scan entry) entry_path)
                else descend fl result
            end
          else descend fl result
      | _ => depth_entries rest fl result
      end
  end.
End depth_entries.

(** [Scanner._depth_search]; [n] is what lies at [path]. *)
Fixpoint _depth_search (DEVELOPER_CLEAN_RULES : list string) (n : node) (path : string)
    (now threshold : Z) (skip_dirs : list string) (depth max_depth : Z)
    (fl : Flag) (result : ScanResult) {struct n} : Flag * ScanResult :=
  let '(c, fl) := read_cancelled fl in
  if c || (max_depth <? depth) then (fl, result) else
  match n with
  | Dir _ true es =>
      depth_entries DEVELOPER_CLEAN_RULES
        (fun e p => _depth_search DEVELOPER_CLEAN_RULES e p now threshold skip_dirs
                      (depth + 1) max_depth)
        path now threshold skip_dirs es fl result
  | _ => (fl, result)
  end.

(** ** Configuration and platform *)

(** One entry of [CLEANUP_ITEMS]; [item.get(k)] is [None] for an absent
    key, and [item.get("paths", [])] is [paths]. *)
Module Item.
Record t : Type := mk {
  id : string;
  name : string;
  special : option string;
  paths : list string;
  extensions : option (list string);
  pattern : option string
}.
End Item.

(** What the call [shell32.SHQueryRecycleBinW(drive_path, byref(info))]
    does: it returns a status and fills [info], or the call raises. *)
Inductive QueryOutcome : Type :=
  | Returned (ret i64Size i64NumItems : Z)
  | Raised (msg : string).

(** ** The progress percentage *)

Definition float_of_int (z : Z) : float := PrimFloat.of_uint63 (Uint63.of_Z z).

(** [int(x)] for a float [x]: truncation towards zero. *)
Definition int_of_float (x : float) : Z :=
  match Prim2SF x with
  | S754_finite s m e =>
      let v := if 0 <=? e then Z.shiftl (Zpos m) e else Z.shiftr (Zpos m) (- e) in
      if s then - v else v
  | _ => 0
  end.

(** [int((index / total_items) * 100)] *)
Definition progress_percent (index total_items : nat) : Z :=
  int_of_float
    (PrimFloat.mul
       (PrimFloat.div (float_of_int (Z.of_nat index)) (float_of_int (Z.of_nat total_items)))
       (float_of_int 100)).

(** ** The scanner *)

(** The fields of a [Scanner] object, and [progress_calls]: the calls the
    progress callback has received, oldest first.  [progress_callback]
    says whether a callback was given. *)
Record Scanner : Type := mkScanner {
  progress_callback : bool;
  drive : string;
  results : gmap string ScanResult;
  flag : Flag;
  progress_calls : list (string * Z)
}.

Definition with_flag (self : Scanner) (fl : Flag) : Scanner :=
  {| progress_callback := progress_callback self; drive := drive self;
     results := results self; flag := fl; progress_calls := progress_calls self |}.

Definition with_results (self : Scanner) (rs : gmap string ScanResult) : Scanner :=
  {| progress_callback := progress_callback self; drive := drive self;
     results := rs; flag := flag self; progress_calls := progress_calls self |}.

(** [if self.progress_callback: self.progress_callback(label, percent)] *)
Definition notify (self : Scanner) (label : string) (percent : Z) : Scanner :=
  if progress_callback self then
    {| progress_callback := progress_callback self; drive := drive self;
       results := results self; flag := flag self;
       progress_calls := progress_calls self ++ [(label, percent)] |}
  else self.

(** [Scanner.__init__]; [pending] is when an outside [cancel()] will land. *)
Definition Scanner_init (callback : bool) (drive : string) (pending : option nat) : Scanner :=
  {| progress_callback := callback;
     drive := Str.remove_char "\" (Str.upper drive);
     results := ∅;
     flag := {| _cancelled := false; pending_cancel := pending |};
     progress_calls := [] |}.

(** [Scanner.cancel] *)
Definition cancel (self : Scanner) : Scanner :=
  with_flag self {| _cancelled := true; pending_cancel := pending_cancel (flag self) |}.

(** The paths one template of a rule stands for (the [target_paths] of
    [_scan_item]). *)
Definition target_paths (get_available_drives : list string) (drive path_template : string)
  : list string :=
  if String.eqb drive "ALL" then
    if Str.startswith (Str.lower path_template) "c:"
    then List.map (fun d => d +:+ Str.drop 2 path_template) get_available_drives
    else [path_template]
  else
    if Str.startswith (Str.lower path_template) "c:"
    then [drive +:+ Str.drop 2 path_template]
    else [path_template].

(** [Scanner._scan_recycle_bin] *)
Definition _scan_recycle_bin (SHQueryRecycleBinW : option string -> QueryOutcome)
    (item_id item_name : string) (drive_path : option string) : ScanResult :=
  let result := new_result item_id item_name in
  match SHQueryRecycleBinW drive_path with
  | Returned ret i64Size i64NumItems =>
      if ret =? 0 then
        {| item_id := item_id; item_name := item_name;
           total_size := i64Size; file_count := i64NumItems;
           files := files result; error := error result |}
      else set_error result "无法获取回收站信息"
  | Raised msg => set_error result msg
  end.

Definition skip_dirs : list string :=
  [ "windows"; "program files"; "program files (x86)";
    "programdata"; "appdata"; ".git"; ".svn"; "system volume information";
    "$recycle.bin"; "recovery"; "msocache" ].

(** [item.get("special") == kind] *)
Definition special_is (item : Item.t) (kind : string) : bool :=
  match Item.special item with
  | Some s => String.eqb s kind
  | None => false
  end.

Section Scanner.
(** [config.py] *)
Variable CLEANUP_ITEMS : list Item.t.
Variable DEVELOPER_CLEAN_RULES : list string.
Variable AGE_THRESHOLD_DAYS : Z.
(** The platform: the fixed drives, the recycle-bin query, what lies
    at a path ([None] when [os.path.exists] is false), and the clock. *)
Variable get_available_drives : list string.
Variable SHQueryRecycleBinW : option string -> QueryOutcome.
Variable fs : string -> option node.
Variable time_now : Z.

(** The loop over [target_paths] in [_scan_item]. *)
Fixpoint scan_targets (extensions : option (list string)) (pattern : option string)
    (targets : list string) (fl : Flag) (result : ScanResult) : Flag * ScanResult :=
  match targets with
  | [] => (fl, result)
  | path :: rest =>
      match fs path with
      | None => scan_targets extensions pattern rest fl result
      | Some n =>
          let '(fl, result) := _scan_directory n path extensions pattern fl result in
          scan_targets extensions pattern rest fl result
      end
  end.

(** The loop over [paths] in [_scan_item]. *)
Fixpoint scan_templates (drive : string) (extensions : option (list string))
    (pattern : option string) (templates : list string) (fl : Flag) (result : ScanResult)
  : Flag * ScanResult :=
  match templates with
  | [] => (fl, result)
  | path_template :: rest =>
      let '(c, fl) := read_cancelled fl in
      if c then (fl, result) else
      let '(fl, result) :=
        scan_targets extensions pattern
          (target_paths get_available_drives drive path_template) fl result in
      scan_templates drive extensions pattern rest fl result
  end.

(** [Scanner._scan_item] *)
Definition _scan_item (drive : string) (item : Item.t) (fl : Flag) : Flag * ScanResult :=
  scan_templates drive (Item.extensions item) (Item.pattern item) (Item.paths item)
    fl (new_result (Item.id item) (Item.name item)).

(** The loop over the drives in [_scan_developer_junk]. *)
Fixpoint junk_drives (now threshold : Z) (drives : list string)
    (fl : Flag) (result : ScanResult) : Flag * ScanResult :=
  match drives with
  | [] => (fl, result)
  | d :: rest =>
      let drive_path := d +:+ "\" in
      match fs drive_path with
      | None => junk_drives now threshold rest fl result
      | Some n =>
          let '(fl, result) :=
            _depth_search DEVELOPER_CLEAN_RULES n drive_path now threshold skip_dirs 0 6
              fl result in
          let '(c, fl) := read_cancelled fl in
          if c then (fl, result) else junk_drives now threshold rest fl result
      end
  end.

(** [Scanner._scan_developer_junk] *)
Definition _scan_developer_junk (drive item_id item_name : string) (fl : Flag)
  : Flag * ScanResult :=
  let result := new_result item_id item_name in
  let now := time_now in
  let threshold_seconds := AGE_THRESHOLD_DAYS * 24 * 3600 in
  let drives := if String.eqb drive "ALL" then get_available_drives else [drive] in
  junk_drives now threshold_seconds drives fl result.

(** The strategy [scan_all] runs for one rule. *)
Definition scan_rule (drive : string) (item : Item.t) (fl : Flag) : Flag * ScanResult :=
  let item_id := Item.id item in
  let item_name := Item.name item in
  if special_is item "recycle_bin" then
    if String.eqb drive "ALL"
    then (fl, _scan_recycle_bin SHQueryRecycleBinW item_id item_name None)
    else (fl, _scan_recycle_bin SHQueryRecycleBinW item_id item_name (Some (drive +:+ "\")))
  else if special_is item "developer_mode" then
    _scan_developer_junk drive item_id item_name fl
  else _scan_item drive item fl.

(** The loop [for index, item in enumerate(CLEANUP_ITEMS)] of [scan_all]. *)
Fixpoint scan_rules (total_items index : nat) (items : list Item.t) (self : Scanner)
  : Scanner :=
  match items with
  | [] => self
  | item :: rest =>
      let '(c, fl) := read_cancelled (flag self) in
      let self := with_flag self fl in
      if c then self else
      let self := notify self (Item.name item) (progress_percent index total_items) in
      let '(fl, result) := scan_rule (drive self) item (flag self) in
      let self := with_results (with_flag self fl) (<[Item.id item := result]> (results self)) in
      scan_rules total_items (S index) rest self
  end.

(** [Scanner.scan_all]; the mapping it returns is [results] of the
    scanner it leaves. *)
Definition scan_all (self : Scanner) : Scanner :=
  let self := with_flag self {| _cancelled := false;
                                pending_cancel := pending_cancel (flag self) |} in
  let self := with_results self ∅ in
  let total_items := length CLEANUP_ITEMS in
  let self := scan_rules total_items 0 CLEANUP_ITEMS self in
  notify self "扫描完成" 100.

End Scanner.

(** ** Reference definitions

    What the specification says, written down independently of the
    code, for the code to be compared with, and the vocabulary of the
    properties below. *)

Section scan_entries_naive.
Variable rec : node -> string -> Flag -> ScanResult -> Flag * ScanResult.
Variable directory : string.
Variable extensions : option (list string).
Variable pattern : option string.

(** The listing loop of the naive scanner: the pattern is tested on the
    full path of every file, and every subdirectory is entered with the
    pattern still in force. *)
Fixpoint scan_entries_naive (es : list (string * node)) (fl : Flag) (result : ScanResult)
  : Flag * ScanResult :=
  match es with
  | [] => (fl, result)
  | (name, entry) :: rest =>
      let '(c, fl) := read_cancelled fl in
      if c then (fl, result) else
      let path := Path.join directory name in
      match entry with
      | File st_size =>
          if ext_excluded extensions path then scan_entries_naive rest fl result
          else if pattern_excluded pattern path then scan_entries_naive rest fl result
          else match st_size with
               | Some size => scan_entries_naive rest fl (count result (Z.of_N size) path)
               | None => scan_entries_naive rest fl result
               end
      | Dir _ _ _ =>
          let '(fl, result) := rec entry path fl result in
          scan_entries_naive rest fl result
      | Other => scan_entries_naive rest fl result
      end
  end.
End scan_entries_naive.

(** The naive generic scanner: no directory-level shortcut. *)
Fixpoint scan_directory_naive (n : node) (directory : string)
    (extensions : option (list string)) (pattern : option string)
    (fl : Flag) (result : ScanResult) {struct n} : Flag * ScanResult :=
  match n with
  | Dir _ true es =>
      scan_entries_naive (fun e p => scan_directory_naive e p extensions pattern)
        directory extensions pattern es fl result
  | _ => (fl, result)
  end.

(** The sizes of the regular files below a directory whose [stat]
    succeeds, over every listable directory, links not followed. *)
Fixpoint file_sizes (n : node) : list Z :=
  match n with
  | Dir _ true es =>
      flat_map (fun ne : string * node =>
                  match ne with
                  | (_, File (Some size)) => [Z.of_N size]
                  | (_, File None) => []
                  | (_, (Dir _ _ _) as d) => file_sizes d
                  | (_, Other) => []
                  end) es
  | _ => []
  end.

Definition sum_sizes (l : list Z) : Z := fold_right Z.add 0 l.

(** A result only grows: size and count do not decrease, and the paths
    are extended at the end. *)
Definition grows (r r' : ScanResult) : Prop :=
  total_size r <= total_size r' /\
  file_count r <= file_count r' /\
  files r `prefix_of` files r'.

(** A template is drive-anchored when it begins with a letter and a colon. *)
Definition drive_anchored (path_template : string) : bool :=
  match path_template with
  | String a (String ":" _) => Str.is_upper a || Str.is_lower a
  | _ => false
  end.

(** The extension filter: none is configured, or the lower-cased suffix
    of the file is one of the entries of the allowlist, as written. *)
Definition passes_extension_filter (extensions : option (list string)) (path : string)
  : bool :=
  match extensions with
  | None => true
  | Some [] => true
  | Some exts => Str.mem (Str.lower (Path.suffix path)) exts
  end.

(** The pattern filter: none is configured, or the lower-cased pattern
    occurs in the lower-cased full path. *)
Definition passes_pattern_filter (pattern : option string) (path : string) : bool :=
  match pattern with
  | None => true
  | Some EmptyString => true
  | Some p => Str.contains (Str.lower path) (Str.lower p)
  end.


(** The progress notifications of the rules [items], the first of which
    has index [index] among [total_items]. *)
Fixpoint notifications (total_items index : nat) (items : list Item.t) : list (string * Z) :=
  match items with
  | [] => []
  | item :: rest =>
      (Item.name item, progress_percent index total_items)
      :: notifications total_items (S index) rest
  end.

(** The scanner as [scan_all] has it on entering its loop: the flag
    cleared, the results emptied. *)
Definition started (self : Scanner) : Scanner :=
  with_results
    (with_flag self {| _cancelled := false; pending_cancel := pending_cancel (flag self) |})
    ∅.

(** The flag is clear and no [cancel()] is on its way. *)
Definition quiet (fl : Flag) : Prop :=
  _cancelled fl = false /\ pending_cancel fl = None.

(** The identifiers of a list of rules, as a set. *)
Definition ids (items : list Item.t) : gset string :=
  list_to_set (Item.id <$> items).



(** ** Example inputs *)

Definition bin_rule (id : string) : Item.t :=
  Item.mk id "回收站" (Some "recycle_bin") [] None None.

Definition temp_rule : Item.t :=
  Item.mk "temp" "临时文件" None ["C:\Temp"] (Some [".tmp"]) None.

Definition dev_rule : Item.t :=
  Item.mk "dev" "开发者垃圾" (Some "developer_mode") [] None None.

Definition example_rules : list Item.t := [temp_rule; bin_rule "recycle_bin"; dev_rule].

Definition fifty_rules : list Item.t := repeat (bin_rule "recycle_bin") 50.

Definition example_query (drive_path : option string) : QueryOutcome := Returned 0 4096 3.

Definition example_fs (path : string) : option node :=
  if String.eqb path "C:\Temp" then
    Some (Dir (Some 0) true [("FOO.TMP", File (Some 5%N)); ("notes.txt", File (Some 9%N))])
  else if String.eqb path "C:\" then
    Some (Dir (Some 0) true
            [("proj", Dir (Some 90) true
                        [("node_modules", Dir (Some 0) true [("a.js", File (Some 7%N))])])])
  else None.

(** ** The rest of the scanner *)

(** One entry of [psutil.disk_partitions(all=False)]. *)
Record partition : Type := mkPartition {
  device : string;
  opts : string;
  fstype : string
}.

Fixpoint insert_sorted (x : string) (l : list string) : list string :=
  match l with
  | [] => [x]
  | y :: t => if String.leb x y then x :: l else y :: insert_sorted x t
  end.

(** [sorted(l)] for a list of strings *)
Definition sorted (l : list string) : list string := fold_right insert_sorted [] l.

(** The partitions [get_available_drives] keeps:
    ['fixed' in part.opts.lower() or part.fstype]. *)
Definition is_local (part : partition) : bool :=
  Str.contains (Str.lower (opts part)) "fixed" ||
  match fstype part with EmptyString => false | String _ _ => true end.

(** [Scanner.get_available_drives]; [disk_partitions] is what
    [psutil.disk_partitions(all=False)] returns, [None] when [psutil]
    cannot be imported or the call raises. *)
Definition Scanner_get_available_drives (disk_partitions : option (list partition))
  : list string :=
  match disk_partitions with
  | Some parts =>
      sorted (List.map (fun part => Str.remove_char "\" (device part))
                (List.filter is_local parts))
  | None => ["C:"]
  end.

(** [Scanner.get_total_size] *)
Definition get_total_size (self : Scanner) : Z :=
  map_fold (fun _ r acc => acc + total_size r) 0 (results self).

(** [Scanner.get_selected_size] *)
Definition get_selected_size (self : Scanner) (selected_ids : list string) : Z :=
  fold_left
    (fun acc id =>
       match results self !! id with
       | Some r => acc + total_size r
       | None => acc
       end)
    selected_ids 0.

(** ** What a scan finds

    The matches of the two traversals as plain lists, in the order of
    the listing, with no cancellation: pairs of a path and a size. *)

(** The files the generic scanner counts below [directory]. *)
Fixpoint matched_files (n : node) (directory : string)
    (extensions : option (list string)) (pattern : option string) : list (string * Z) :=
  match n with
  | Dir _ true es =>
      flat_map (fun ne : string * node =>
                  match ne with
                  | (name, File (Some size)) =>
                      if passes_extension_filter extensions (Path.join directory name)
                         && passes_pattern_filter pattern (Path.join directory name)
                      then [(Path.join directory name, Z.of_N size)]
                      else []
                  | (_, File None) => []
                  | (name, (Dir _ _ _) as d) =>
                      matched_files d (Path.join directory name) extensions pattern
                  | (_, Other) => []
                  end) es
  | _ => []
  end.

(** The directories the developer-junk scanner counts below [path]. *)
Fixpoint junk_matches (rules : list string) (n : node) (path : string)
    (now threshold : Z) (skips : list string) (depth max_depth : Z) : list (string * Z) :=
  if max_depth <? depth then [] else
  match n with
  | Dir _ true es =>
      flat_map (fun ne : string * node =>
                  match ne with
                  | (name, (Dir st_mtime _ _) as d) =>
                      let inside :=
                        if Str.mem (Str.lower name) skips || Str.startswith name "."
                        then []
                        else junk_matches rules d (Path.join path name) now threshold skips
                               (depth + 1) max_depth in
                      if Str.mem (Str.lower name) rules then
                        match st_mtime with
                        | None => []
                        | Some mtime =>
                            if threshold <? now - mtime
                            then [(Path.join path name, _get_dir_size_for_scan d)]
                            else inside
                        end
                      else inside
                  | _ => []
                  end) es
  | _ => []
  end.

(** A result after the matches [l] have been counted, in order. *)
Definition count_all (result : ScanResult) (l : list (string * Z)) : ScanResult :=
  fold_left (fun r m => count r m.2 m.1) l result.


(** All the matches of the developer-junk rule, over the drives. *)
Definition drive_matches (rules : list string) (fs : string -> option node)
    (now threshold : Z) (drives : list string) : list (string * Z) :=
  flat_map (fun d =>
              match fs (d +:+ "\") with
              | Some n => junk_matches rules n (d +:+ "\") now threshold skip_dirs 0 6
              | None => []
              end) drives.

(** The mapping after each rule of [items] has stored the result
    [run] gives for it. *)
Definition store_all (run : Item.t -> ScanResult) (items : list Item.t)
    (rs : gmap string ScanResult) : gmap string ScanResult :=
  fold_left (fun rs item => <[Item.id item := run item]> rs) items rs.

(** [runs M fl result out]: a traversal started with the flag [fl] and
    the result [result], whose matches are [M], ends as [out]: it does
    nothing when the flag is set, it counts the first [k] matches for
    some [k], and all of them unless it leaves with the flag set. *)
Definition runs (M : list (string * Z)) (fl : Flag) (result : ScanResult)
    (out : Flag * ScanResult) : Prop :=
  (_cancelled fl = true -> out = (fl, result)) /\
  exists k : nat,
    (k <= length M)%nat /\
    out.2 = count_all result (take k M) /\
    (_cancelled out.1 = false -> k = length M).

(** What an identifier adds to [get_selected_size]. *)
Definition size_or_zero (self : Scanner) (id : string) : Z :=
  match results self !! id with
  | Some r => total_size r
  | None => 0
  end.

(** The flag of a run that no [cancel()] reaches. *)
Definition clear_flag : Flag := {| _cancelled := false; pending_cancel := None |}.

(** [steady total]: for every index below [total] the progress
    percentage lies between 0 and 99 and is at most the next one. *)
Definition steady_at (total index : nat) : bool :=
  (0 <=? progress_percent index total) && (progress_percent index total <=? 99)
  && (progress_percent index total <=? progress_percent (S index) total).

Definition steady (total : nat) : bool :=
  forallb (steady_at total) (seq 0 total).

(** * Properties *)

(** ** The recycle-bin probe *)

(** C6: when the platform query returns a status other than zero, the
    probe's result carries the error message and its size and count are
    zero; when the query returns zero, size and count are the two
    aggregates the query reported.  Either way no path is listed: the
    probe enumerates nothing. *)
Theorem scan_recycle_bin_status
    (query : option string -> QueryOutcome) (item_id item_name : string)
    (drive_path : option string) (ret i64Size i64NumItems : Z) :
  query drive_path = Returned ret i64Size i64NumItems ->
  let result := _scan_recycle_bin query item_id item_name drive_path in
  (ret <> 0 ->
     error result = Some "无法获取回收站信息" /\
     total_size result = 0 /\ file_count result = 0 /\ files result = []) /\
  (ret = 0 ->
     error result = None /\
     total_size result = i64Size /\ file_count result = i64NumItems /\
     files result = []).
Proof.
  intros Hq result. subst result. unfold _scan_recycle_bin. rewrite Hq.
  split; intros Hret.
  - apply Z.eqb_neq in Hret. rewrite Hret. cbn. auto.
  - subst ret. cbn. auto.
Qed.

Lemma scan_recycle_bin_status_witness :
  let query := fun dp : option string =>
                 match dp with None => Returned 0 4096 3 | Some _ => Returned 1 0 0 end in
  query None = Returned 0 4096 3 /\
  total_size (_scan_recycle_bin query "recycle_bin" "Recycle Bin" None) = 4096 /\
  error (_scan_recycle_bin query "recycle_bin" "Recycle Bin" (Some "C:\"))
    = Some "无法获取回收站信息".
Proof.
  intros query. split; [reflexivity|]. split.
  - apply (scan_recycle_bin_status query "recycle_bin" "Recycle Bin" None 0 4096 3);
      reflexivity.
  - apply (scan_recycle_bin_status query "recycle_bin" "Recycle Bin" (Some "C:\") 1 0 0);
      [reflexivity | discriminate].
Defined.

(** ** Strings and paths *)

Lemma lower_app (a b : string) : Str.lower (a +:+ b) = Str.lower a +:+ Str.lower b.
Proof.
  unfold Str.lower. induction a as [|c a IH]; [reflexivity|].
  change (String c a +:+ b) with (String c (a +:+ b)). cbn [Str.map]. rewrite IH. reflexivity.
Qed.

Lemma startswith_app (s t p : string) :
  Str.startswith s p = true -> Str.startswith (s +:+ t) p = true.
Proof.
  revert s. induction p as [|a p IH]; intros s H; [reflexivity|].
  destruct s as [|b s]; [discriminate|].
  change (String b s +:+ t) with (String b (s +:+ t)).
  cbn [Str.startswith] in *.
  apply andb_true_iff in H as [Hab Hs]. apply andb_true_iff. split; [exact Hab|].
  now apply IH.
Qed.

Lemma contains_app (s t p : string) :
  Str.contains s p = true -> Str.contains (s +:+ t) p = true.
Proof.
  induction s as [|c s IH]; intros H.
  - cbn in H. rewrite orb_false_r in H. destruct p; [|discriminate].
    destruct t; reflexivity.
  - cbn [Str.contains] in H. apply orb_true_iff in H as [H|H].
    + change (String c s +:+ t) with (String c (s +:+ t)).
      cbn [Str.contains]. apply orb_true_iff. left.
      now apply (startswith_app (String c s) t p).
    + change (String c s +:+ t) with (String c (s +:+ t)).
      cbn [Str.contains]. apply orb_true_iff. right. now apply IH.
Qed.

(** The path of an entry begins with the path of its directory. *)
Lemma join_extends (directory name : string) :
  exists x, Path.join directory name = directory +:+ x.
Proof.
  unfold Path.join. destruct (Str.last_char directory) as [c|] eqn:E.
  - destruct (Path.is_sep c); eauto.
  - exists name. unfold Str.last_char in E.
    destruct directory as [|a d]; [reflexivity|].
    cbn in E. exfalso. revert a E. induction d as [|b d IH]; intros a E.
    + discriminate.
    + cbn in E. destruct d; [discriminate|]. now apply (IH b).
Qed.

(** A pattern found in a directory's path is found in the path of each
    of its entries. *)
Lemma pattern_excluded_join (pattern : option string) (directory name : string) :
  pattern_excluded pattern directory = false ->
  pattern_excluded pattern (Path.join directory name) = false.
Proof.
  destruct pattern as [[|a p]|]; cbn; try reflexivity.
  intros H. apply negb_false_iff in H. apply negb_false_iff.
  destruct (join_extends directory name) as [x ->].
  rewrite lower_app. now apply contains_app.
Qed.

(** ** Induction on file-system trees *)

Lemma node_ind' (P : node -> Prop)
    (HFile : forall st_size, P (File st_size))
    (HDir : forall st_mtime listable es,
        Forall (fun ne => P ne.2) es -> P (Dir st_mtime listable es))
    (HOther : P Other) :
  forall n, P n.
Proof.
  fix IH 1. intros [s|m l es|].
  - apply HFile.
  - apply HDir.
    induction es as [|ne es IHes]; constructor; [apply IH | exact IHes].
  - apply HOther.
Qed.

(** ** The directory-level pattern shortcut *)

Lemma scan_directory_Dir (st_mtime : option Z) (es : list (string * node))
    (directory : string) (extensions : option (list string)) (pattern : option string)
    (fl : Flag) (result : ScanResult) :
  _scan_directory (Dir st_mtime true es) directory extensions pattern fl result =
  scan_entries (fun e p pat => _scan_directory e p extensions pat)
    directory extensions pattern es fl result.
Proof. reflexivity. Qed.

Lemma scan_directory_naive_Dir (st_mtime : option Z) (es : list (string * node))
    (directory : string) (extensions : option (list string)) (pattern : option string)
    (fl : Flag) (result : ScanResult) :
  scan_directory_naive (Dir st_mtime true es) directory extensions pattern fl result =
  scan_entries_naive (fun e p => scan_directory_naive e p extensions pattern)
    directory extensions pattern es fl result.
Proof. reflexivity. Qed.

(** Below a directory whose path holds the pattern, scanning without
    the pattern is scanning naively with it. *)
Lemma scan_directory_covered (extensions : option (list string)) (pattern : option string)
    (n : node) :
  forall directory fl result,
    pattern_excluded pattern directory = false ->
    _scan_directory n directory extensions None fl result =
    scan_directory_naive n directory extensions pattern fl result.
Proof.
  induction n as [sz|m l es IH|] using node_ind'; intros directory fl result Hcov;
    try reflexivity.
  destruct l; [|reflexivity].
  rewrite scan_directory_Dir, scan_directory_naive_Dir.
  revert fl result. induction es as [|[name e] es IHes]; intros fl result; [reflexivity|].
  apply Forall_cons in IH as [He Hes]. specialize (IHes Hes). cbn [snd] in He.
  pose proof (pattern_excluded_join pattern directory name Hcov) as Hp.
  cbn [scan_entries scan_entries_naive].
  destruct (read_cancelled fl) as [[] fl1]; [reflexivity|].
  destruct e as [sz| m' l' es' |].
  - rewrite Hp. cbn [pattern_excluded].
    destruct (ext_excluded extensions (Path.join directory name)); [apply IHes|].
    destruct sz; apply IHes.
  - cbn [pattern_excluded]. rewrite (He _ fl1 result Hp).
    destruct (scan_directory_naive _ _ _ _ _ _) as [fl2 r2]. apply IHes.
  - apply IHes.
Qed.

(** C9: for every file-system tree, every extension allowlist, every
    pattern, every starting result and every moment of cancellation, the
    scanner with the directory-level shortcut (a subdirectory whose path
    holds the pattern is scanned with the pattern switched off) returns
    what the naive scanner returns, which tests the pattern on the full
    path of each file: the same size, count, paths and flag. *)
Theorem scan_directory_refines_naive (n : node) (directory : string)
    (extensions : option (list string)) (pattern : option string)
    (fl : Flag) (result : ScanResult) :
  _scan_directory n directory extensions pattern fl result =
  scan_directory_naive n directory extensions pattern fl result.
Proof.
  revert directory fl result.
  induction n as [sz|m l es IH|] using node_ind'; intros directory fl result;
    try reflexivity.
  destruct l; [|reflexivity].
  rewrite scan_directory_Dir, scan_directory_naive_Dir.
  revert fl result. induction es as [|[name e] es IHes]; intros fl result; [reflexivity|].
  apply Forall_cons in IH as [He Hes]. specialize (IHes Hes). cbn [snd] in He.
  cbn [scan_entries scan_entries_naive].
  destruct (read_cancelled fl) as [[] fl1]; [reflexivity|].
  destruct e as [sz| m' l' es' |].
  - destruct (ext_excluded extensions (Path.join directory name)); [apply IHes|].
    destruct (pattern_excluded pattern (Path.join directory name)); [apply IHes|].
    destruct sz; apply IHes.
  - destruct (pattern_excluded pattern (Path.join directory name)) eqn:Hp.
    + rewrite He. destruct (scan_directory_naive _ _ _ _ _ _) as [fl2 r2]. apply IHes.
    + rewrite (scan_directory_covered extensions pattern _ _ fl1 result Hp).
      destruct (scan_directory_naive _ _ _ _ _ _) as [fl2 r2]. apply IHes.
  - apply IHes.
Qed.

(** ** Results only grow *)

Lemma grows_refl (r : ScanResult) : grows r r.
Proof. unfold grows. repeat split; [lia | lia | reflexivity]. Qed.

Lemma grows_trans (r1 r2 r3 : ScanResult) : grows r1 r2 -> grows r2 r3 -> grows r1 r3.
Proof.
  intros (Hs1 & Hc1 & Hf1) (Hs2 & Hc2 & Hf2). unfold grows.
  repeat split; [lia | lia | etransitivity; eassumption].
Qed.

Lemma grows_count (r : ScanResult) (size : Z) (path : string) :
  0 <= size -> grows r (count r size path).
Proof.
  intros Hsize. unfold grows, count. cbn.
  repeat split; [lia | lia | now apply prefix_app_r].
Qed.

Create HintDb grows.
#[local] Hint Resolve grows_refl grows_count : grows.

Lemma size_entries_nonneg (rec : node -> Z) (es : list (string * node)) :
  Forall (fun ne => 0 <= rec ne.2) es ->
  forall total, 0 <= total -> 0 <= size_entries rec es total.
Proof.
  induction 1 as [|[name e] es He Hes IH]; intros total Htotal; [exact Htotal|].
  cbn [size_entries]. cbn [snd] in He.
  destruct e as [[sz|]| m l es' |]; apply IH; lia.
Qed.

Lemma get_dir_size_nonneg (n : node) : 0 <= _get_dir_size_for_scan n.
Proof.
  induction n as [sz|m l es IH|] using node_ind'; cbn; try lia.
  destruct l; [|lia]. now apply size_entries_nonneg.
Qed.

Lemma scan_directory_grows (n : node) :
  forall directory extensions pattern fl result,
    grows result (_scan_directory n directory extensions pattern fl result).2.
Proof.
  induction n as [sz|m l es IH|] using node_ind';
    intros directory extensions pattern fl result; try apply grows_refl.
  destruct l; [|apply grows_refl].
  rewrite scan_directory_Dir.
  revert fl result. induction es as [|[name e] es IHes]; intros fl result;
    [apply grows_refl|].
  apply Forall_cons in IH as [He Hes]. specialize (IHes Hes). cbn [snd] in He.
  cbn [scan_entries].
  destruct (read_cancelled fl) as [[] fl1]; [apply grows_refl|].
  destruct e as [sz| m' l' es' |].
  - destruct (ext_excluded _ _); [apply IHes|].
    destruct (pattern_excluded _ _); [apply IHes|].
    destruct sz as [size|]; [|apply IHes].
    eapply grows_trans; [|apply IHes]. apply grows_count. lia.
  - destruct (pattern_excluded _ _).
    + pose proof (He (Path.join directory name) extensions pattern fl1 result) as Hg.
      destruct (_scan_directory _ _ _ _ _ _) as [fl2 r2].
      eapply grows_trans; [exact Hg | apply IHes].
    + pose proof (He (Path.join directory name) extensions None fl1 result) as Hg.
      destruct (_scan_directory _ _ _ _ _ _) as [fl2 r2].
      eapply grows_trans; [exact Hg | apply IHes].
  - apply IHes.
Qed.

Lemma depth_search_eq (rules : list string) (n : node) (path : string)
    (now threshold : Z) (skips : list string) (depth max_depth : Z)
    (fl : Flag) (result : ScanResult) :
  _depth_search rules n path now threshold skips depth max_depth fl result =
  let '(c, fl) := read_cancelled fl in
  if c || (max_depth <? depth) then (fl, result) else
  match n with
  | Dir _ true es =>
      depth_entries rules
        (fun e p => _depth_search rules e p now threshold skips (depth + 1) max_depth)
        path now threshold skips es fl result
  | _ => (fl, result)
  end.
Proof. destruct n; reflexivity. Qed.

Lemma depth_entries_grows (rules : list string)
    (rec : node -> string -> Flag -> ScanResult -> Flag * ScanResult)
    (path : string) (now threshold : Z) (skips : list string)
    (es : list (string * node)) :
  Forall (fun ne => forall p fl r, grows r (rec ne.2 p fl r).2) es ->
  forall fl result,
    grows result (depth_entries rules rec path now threshold skips es fl result).2.
Proof.
  induction 1 as [|[name e] es He Hes IH]; intros fl result; [apply grows_refl|].
  cbn [snd] in He. cbn [depth_entries].
  destruct (read_cancelled fl) as [[] fl1]; [apply grows_refl|].
  destruct e as [sz| m l es' |]; try apply IH.
  assert (Hdescend :
    grows result
      (if Str.mem (Str.lower name) skips || Str.startswith name "."
       then depth_entries rules rec path now threshold skips es fl1 result
       else let '(fl2, r2) := rec (Dir m l es') (Path.join path name) fl1 result in
            depth_entries rules rec path now threshold skips es fl2 r2).2).
  { destruct (_ || _); [apply IH|].
    pose proof (He (Path.join path name) fl1 result) as Hg.
    destruct (rec _ _ _ _) as [fl2 r2]. eapply grows_trans; [exact Hg | apply IH]. }
  destruct (Str.mem (Str.lower name) rules); [|exact Hdescend].
  destruct m as [mtime|]; [|apply IH].
  destruct (threshold <? now - mtime); [|exact Hdescend].
  eapply grows_trans; [|apply IH]. apply grows_count. apply get_dir_size_nonneg.
Qed.

Lemma depth_search_grows (rules : list string) (now threshold : Z) (skips : list string)
    (max_depth : Z) (n : node) :
  forall path depth fl result,
    grows result (_depth_search rules n path now threshold skips depth max_depth fl result).2.
Proof.
  induction n as [sz|m l es IH|] using node_ind'; intros path depth fl result;
    rewrite depth_search_eq;
    destruct (read_cancelled fl) as [c fl1];
    destruct (c || (max_depth <? depth)); try apply grows_refl.
  destruct l; [|apply grows_refl].
  apply depth_entries_grows.
  eapply Forall_impl; [exact IH|]. intros ne Hne p fl' r. apply Hne.
Qed.

Lemma scan_targets_grows (fs : string -> option node)
    (extensions : option (list string)) (pattern : option string) (targets : list string) :
  forall fl result,
    grows result (scan_targets fs extensions pattern targets fl result).2.
Proof.
  induction targets as [|path rest IH]; intros fl result; cbn [scan_targets];
    [auto with grows|].
  destruct (fs path) as [n|]; [|apply IH].
  pose proof (scan_directory_grows n path extensions pattern fl result) as Hg.
  destruct (_scan_directory _ _ _ _ _ _) as [fl1 r1].
  eapply grows_trans; [exact Hg | apply IH].
Qed.

Lemma scan_templates_grows (drives : list string) (fs : string -> option node)
    (drive : string) (extensions : option (list string)) (pattern : option string)
    (templates : list string) :
  forall fl result,
    grows result (scan_templates drives fs drive extensions pattern templates fl result).2.
Proof.
  induction templates as [|t rest IH]; intros fl result; cbn [scan_templates];
    [auto with grows|].
  destruct (read_cancelled fl) as [[] fl1]; [auto with grows|].
  pose proof (scan_targets_grows fs extensions pattern
                (target_paths drives drive t) fl1 result) as Hg.
  destruct (scan_targets _ _ _ _ _ _) as [fl2 r2].
  eapply grows_trans; [exact Hg | apply IH].
Qed.

Lemma junk_drives_grows (rules : list string) (fs : string -> option node)
    (now threshold : Z) (drives : list string) :
  forall fl result,
    grows result (junk_drives rules fs now threshold drives fl result).2.
Proof.
  induction drives as [|d rest IH]; intros fl result; cbn [junk_drives];
    [auto with grows|].
  destruct (fs (d +:+ "\")) as [n|]; [|apply IH].
  pose proof (depth_search_grows rules now threshold skip_dirs 6 n
                (d +:+ "\") 0 fl result) as Hg.
  destruct (_depth_search _ _ _ _ _ _ _ _ _ _) as [fl1 r1].
  destruct (read_cancelled fl1) as [[] fl2]; [exact Hg|].
  eapply grows_trans; [exact Hg | apply IH].
Qed.

(** C7: no scanner operation ever decreases [total_size] or
    [file_count] of a result, and [files] is only extended at its end.
    This holds of the generic scan (one directory, and all the templates
    of a rule), of the developer-junk scan (one drive root, and all the
    drives), and of the recycle-bin probe, which fills a fresh result
    from the two aggregates of the platform query, provided these are
    not negative. *)
Theorem scanners_only_grow :
  (forall n directory extensions pattern fl result,
      grows result (_scan_directory n directory extensions pattern fl result).2) /\
  (forall drives fs drive item fl,
      grows (new_result (Item.id item) (Item.name item))
            (_scan_item drives fs drive item fl).2) /\
  (forall rules n path now threshold skips depth max_depth fl result,
      grows result
            (_depth_search rules n path now threshold skips depth max_depth fl result).2) /\
  (forall rules age drives fs now drive item_id item_name fl,
      grows (new_result item_id item_name)
            (_scan_developer_junk rules age drives fs now drive item_id item_name fl).2) /\
  (forall query item_id item_name drive_path,
      (forall ret i64Size i64NumItems,
          query drive_path = Returned ret i64Size i64NumItems ->
          0 <= i64Size /\ 0 <= i64NumItems) ->
      grows (new_result item_id item_name)
            (_scan_recycle_bin query item_id item_name drive_path)).
Proof.
  split; [|split; [|split; [|split]]].
  - intros. apply scan_directory_grows.
  - intros. apply scan_templates_grows.
  - intros. apply depth_search_grows.
  - intros. apply junk_drives_grows.
  - intros query item_id item_name drive_path Hq. unfold _scan_recycle_bin.
    destruct (query drive_path) as [ret size num|msg] eqn:E.
    + destruct (Hq ret size num eq_refl) as [Hsize Hnum].
      destruct (ret =? 0); unfold grows; cbn; repeat split; try lia; reflexivity.
    + unfold grows; cbn; repeat split; try lia; reflexivity.
Qed.

Lemma scanners_only_grow_witness :
  grows (new_result "recycle_bin" "Recycle Bin")
        (_scan_recycle_bin (fun _ => Returned 0 4096 3) "recycle_bin" "Recycle Bin" None) /\
  grows (count (new_result "temp" "Temp") 10 "C:\old.tmp")
        (_scan_directory (Dir None true [("a.tmp", File (Some 5%N))]) "C:\Temp"
           (Some [".tmp"]) None (mkFlag false None)
           (count (new_result "temp" "Temp") 10 "C:\old.tmp")).2.
Proof.
  destruct scanners_only_grow as (Hdir & _ & _ & _ & Hbin). split.
  - apply Hbin. intros ret size num E. injection E as <- <- <-. lia.
  - apply Hdir.
Defined.

(** ** The developer-junk scanner *)

Lemma sum_sizes_app (l1 l2 : list Z) : sum_sizes (l1 ++ l2) = sum_sizes l1 + sum_sizes l2.
Proof. unfold sum_sizes. induction l1 as [|x l1 IH]; cbn; [reflexivity|]. rewrite IH. lia. Qed.

(** [_get_dir_size_for_scan] adds up the sizes of the files below. *)
Lemma get_dir_size_sum (n : node) : _get_dir_size_for_scan n = sum_sizes (file_sizes n).
Proof.
  induction n as [sz|m l es IH|] using node_ind'; try reflexivity.
  destruct l; [|reflexivity]. cbn [_get_dir_size_for_scan file_sizes].
  enough (H : forall total,
             size_entries _get_dir_size_for_scan es total =
             total + sum_sizes
               (flat_map (fun ne : string * node =>
                  match ne with
                  | (_, File (Some size)) => [Z.of_N size]
                  | (_, File None) => []
                  | (_, (Dir _ _ _) as d) => file_sizes d
                  | (_, Other) => []
                  end) es)) by (rewrite H; lia).
  induction IH as [|[name e] es He Hes IHes]; intros total.
  - cbn. lia.
  - cbn [size_entries flat_map]. cbn [snd] in He. rewrite sum_sizes_app.
    destruct e as [[sz|]| m' l' es' |]; rewrite IHes.
    + cbn. lia.
    + cbn. lia.
    + rewrite He. lia.
    + cbn. lia.
Qed.

(** C2: when the loop of [_depth_search] reaches, not cancelled, a
    directory entry whose lower-cased name is a junk name and whose age
    [now - mtime] exceeds the threshold, it adds the size of the subtree
    to [total_size], adds one to [file_count], appends the path of the
    directory, and goes on with the next entry: whatever the recursive
    call [rec] would do, it is not made on this entry.  The size added
    is the sum of the sizes of the regular files below the directory. *)
Theorem depth_entries_stale_junk (rules : list string)
    (rec : node -> string -> Flag -> ScanResult -> Flag * ScanResult)
    (path : string) (now threshold : Z) (skips : list string)
    (name : string) (mtime : Z) (listable : bool) (children rest : list (string * node))
    (fl fl1 : Flag) (result : ScanResult) :
  read_cancelled fl = (false, fl1) ->
  Str.mem (Str.lower name) rules = true ->
  threshold < now - mtime ->
  let entry := Dir (Some mtime) listable children in
  let size := sum_sizes (file_sizes entry) in
  let counted :=
    {| item_id := item_id result; item_name := item_name result;
       total_size := total_size result + size;
       file_count := file_count result + 1;
       files := files result ++ [Path.join path name];
       error := error result |} in
  depth_entries rules rec path now threshold skips ((name, entry) :: rest) fl result =
  depth_entries rules rec path now threshold skips rest fl1 counted.
Proof.
  intros Hread Hjunk Hage entry size counted. subst counted size entry.
  cbn [depth_entries]. rewrite Hread, Hjunk.
  apply Z.ltb_lt in Hage. rewrite Hage.
  rewrite <- get_dir_size_sum. reflexivity.
Qed.

Lemma depth_entries_stale_junk_witness :
  let entry := Dir (Some 0) true
                 [("a.js", File (Some 7%N)); ("lnk", Other);
                  ("sub", Dir None true [("b.js", File (Some 3%N)); ("c.js", File None)])] in
  (_depth_search ["node_modules"] (Dir None true [("Node_Modules", entry)]) "C:\"
     100 30 skip_dirs 0 6 (mkFlag false None) (new_result "dev" "Dev")).2 =
  {| item_id := "dev"; item_name := "Dev"; total_size := 10; file_count := 1;
     files := ["C:\Node_Modules"]; error := None |}.
Proof.
  intros entry. rewrite depth_search_eq. cbn [read_cancelled _cancelled pending_cancel].
  cbn [orb Z.ltb Z.compare].
  unfold entry.
  rewrite (depth_entries_stale_junk ["node_modules"] _ "C:\" 100 30 skip_dirs
             "Node_Modules" 0 true _ [] (mkFlag false None) (mkFlag false None)
             (new_result "dev" "Dev")); [reflexivity | reflexivity | reflexivity | lia].
Defined.

(** C1, as the code has it: when the loop of [_depth_search] reaches,
    not cancelled, a directory entry whose lower-cased name is a junk
    name and whose age [now - mtime] does not exceed the threshold, the
    entry itself is not counted (no size, no count, no path).  It is
    then treated as any other directory: skipped when its lower-cased
    name is in the skip set or its name begins with a dot, and entered
    one level deeper otherwise. *)
Theorem depth_entries_recent_junk (rules : list string)
    (rec : node -> string -> Flag -> ScanResult -> Flag * ScanResult)
    (path : string) (now threshold : Z) (skips : list string)
    (name : string) (mtime : Z) (listable : bool) (children rest : list (string * node))
    (fl fl1 : Flag) (result : ScanResult) :
  read_cancelled fl = (false, fl1) ->
  Str.mem (Str.lower name) rules = true ->
  now - mtime <= threshold ->
  let entry := Dir (Some mtime) listable children in
  depth_entries rules rec path now threshold skips ((name, entry) :: rest) fl result =
  if Str.mem (Str.lower name) skips || Str.startswith name "."
  then depth_entries rules rec path now threshold skips rest fl1 result
  else let '(fl2, result2) := rec entry (Path.join path name) fl1 result in
       depth_entries rules rec path now threshold skips rest fl2 result2.
Proof.
  intros Hread Hjunk Hage entry. subst entry.
  cbn [depth_entries]. rewrite Hread, Hjunk.
  apply Z.ltb_ge in Hage. rewrite Hage. reflexivity.
Qed.

(** A junk-named directory modified 5 ticks ago, under a threshold of
    30, is entered, and the stale junk directory inside it is counted. *)
Lemma depth_search_enters_recent_junk :
  let stale := Dir (Some 0) true [("a.js", File (Some 7%N))] in
  let recent := Dir (Some 95) true [("node_modules", stale)] in
  let root := Dir None true [("node_modules", recent)] in
  Str.mem (Str.lower "node_modules") ["node_modules"] = true /\
  100 - 95 <= 30 /\
  (_depth_search ["node_modules"] root "C:\" 100 30 skip_dirs 0 6
     (mkFlag false None) (new_result "dev" "Dev")).2 =
  {| item_id := "dev"; item_name := "Dev"; total_size := 7; file_count := 1;
     files := ["C:\node_modules\node_modules"]; error := None |} /\
  (_depth_search ["node_modules"] root "C:\" 100 30 skip_dirs 0 6
     (mkFlag false None) (new_result "dev" "Dev")).2 <> new_result "dev" "Dev".
Proof.
  cbv zeta. split; [reflexivity|]. split; [lia|]. split; [reflexivity|].
  vm_compute. discriminate.
Qed.

Lemma depth_entries_recent_junk_witness :
  let stale := Dir (Some 0) true [("a.js", File (Some 7%N))] in
  let recent := Dir (Some 95) true [("node_modules", stale)] in
  let rec := fun e p => _depth_search ["node_modules"] e p 100 30 skip_dirs 1 6 in
  (depth_entries ["node_modules"] rec "C:\" 100 30 skip_dirs
     [("node_modules", recent); (".venv", Dir (Some 99) true [])]
     (mkFlag false None) (new_result "dev" "Dev")).2 =
  {| item_id := "dev"; item_name := "Dev"; total_size := 7; file_count := 1;
     files := ["C:\node_modules\node_modules"]; error := None |}.
Proof.
  intros stale recent rec. unfold recent.
  rewrite (depth_entries_recent_junk ["node_modules"] rec "C:\" 100 30 skip_dirs
             "node_modules" 95 true _ _ (mkFlag false None) (mkFlag false None)
             (new_result "dev" "Dev")); [reflexivity | reflexivity | reflexivity | lia].
Defined.

(** ** Drive letters *)

Lemma lower_char_c (a : ascii) :
  Ascii.eqb (Str.lower_char a) "c" = true <-> a = "c"%char \/ a = "C"%char.
Proof.
  destruct a as [[] [] [] [] [] [] [] []]; vm_compute;
    (split; [intros H; first [discriminate H | now left | now right]
            | intros [H|H]; first [discriminate H | reflexivity]]).
Qed.

(** The test [path_template.lower().startswith("c:")] holds of the
    templates that begin with [c:] or [C:], and of no other. *)
Lemma startswith_c_iff (path_template : string) :
  Str.startswith (Str.lower path_template) "c:" = true <->
  exists a rest, path_template = String a (String ":" rest) /\
                 (a = "c"%char \/ a = "C"%char).
Proof.
  split.
  - destruct path_template as [|a [|b rest]];
      cbn [Str.lower Str.map Str.startswith]; try discriminate.
    + rewrite andb_false_r. discriminate.
    + intros H. apply andb_true_iff in H as [Ha Hb].
      rewrite andb_true_r in Hb.
      exists a, rest. split.
      * f_equal. f_equal.
        destruct b as [[] [] [] [] [] [] [] []]; vm_compute in Hb;
          first [reflexivity | discriminate Hb].
      * apply lower_char_c. rewrite Ascii.eqb_sym. exact Ha.
  - intros (a & rest & -> & [-> | ->]); reflexivity.
Qed.

(** C3, as the code has it: a template that begins with [c:] or [C:] is
    expanded, under the selector [ALL], into one path per available
    drive, the drive standing in place of the template's first two
    characters, and under any other selector into the one path that
    begins with that selector; every other template, also one anchored
    at another drive letter, is passed on unchanged. *)
Theorem target_paths_c_anchored (drives : list string) (drive path_template : string) :
  (Str.startswith (Str.lower path_template) "c:" = true ->
   drive = "ALL" ->
   target_paths drives drive path_template =
   List.map (fun d => d +:+ Str.drop 2 path_template) drives) /\
  (Str.startswith (Str.lower path_template) "c:" = true ->
   drive <> "ALL" ->
   target_paths drives drive path_template = [drive +:+ Str.drop 2 path_template]) /\
  (Str.startswith (Str.lower path_template) "c:" = false ->
   target_paths drives drive path_template = [path_template]).
Proof.
  unfold target_paths. repeat split.
  - intros -> ->. reflexivity.
  - intros -> Hne. apply String.eqb_neq in Hne. now rewrite Hne.
  - intros ->. now destruct (String.eqb drive "ALL").
Qed.

Lemma target_paths_c_anchored_witness :
  target_paths ["C:"; "D:"] "D:" "C:\Windows\Temp" = ["D:\Windows\Temp"] /\
  target_paths ["C:"; "D:"] "ALL" "C:\Windows\Temp" = ["C:\Windows\Temp"; "D:\Windows\Temp"] /\
  target_paths ["C:"; "D:"] "ALL" "%TEMP%\cache" = ["%TEMP%\cache"].
Proof.
  destruct (target_paths_c_anchored ["C:"; "D:"] "D:" "C:\Windows\Temp") as (_ & H1 & _).
  destruct (target_paths_c_anchored ["C:"; "D:"] "ALL" "C:\Windows\Temp") as (H2 & _ & _).
  destruct (target_paths_c_anchored ["C:"; "D:"] "ALL" "%TEMP%\cache") as (_ & _ & H3).
  split; [|split].
  - rewrite H1; [reflexivity | reflexivity | discriminate].
  - rewrite H2; reflexivity.
  - rewrite H3; reflexivity.
Defined.

(** A template anchored at [D:] is left as it is, under the selector
    [E:] and under [ALL]. *)
Lemma target_paths_other_drive_letter :
  drive_anchored "D:\Windows\Temp" = true /\
  target_paths ["C:"; "D:"] "E:" "D:\Windows\Temp" = ["D:\Windows\Temp"] /\
  target_paths ["C:"; "D:"] "E:" "D:\Windows\Temp" <> ["E:\Windows\Temp"] /\
  target_paths ["C:"; "D:"] "ALL" "D:\Windows\Temp" = ["D:\Windows\Temp"] /\
  target_paths ["C:"; "D:"] "ALL" "D:\Windows\Temp"
    <> ["C:\Windows\Temp"; "D:\Windows\Temp"].
Proof.
  repeat split; try reflexivity; vm_compute; discriminate.
Qed.

(** ** The filters of the generic scanner *)





(** ** The cancellation flag *)

Lemma read_cancelled_true (fl fl1 : Flag) :
  read_cancelled fl = (true, fl1) -> _cancelled fl1 = true.
Proof.
  unfold read_cancelled. destruct (_cancelled fl) eqn:E.
  - intros [= <-]. exact E.
  - destruct (pending_cancel fl) as [[|k]|]; intros [= <-]; reflexivity.
Qed.

Lemma read_cancelled_set (fl : Flag) :
  _cancelled fl = true -> read_cancelled fl = (true, fl).
Proof. intros H. unfold read_cancelled. now rewrite H. Qed.

Lemma read_cancelled_quiet (fl : Flag) : quiet fl -> read_cancelled fl = (false, fl).
Proof. intros [H1 H2]. unfold read_cancelled. now rewrite H1, H2. Qed.

(** While the flag is quiet the traversals leave it as it is. *)
Lemma scan_directory_quiet (n : node) :
  forall directory extensions pattern fl result,
    quiet fl -> (_scan_directory n directory extensions pattern fl result).1 = fl.
Proof.
  induction n as [sz|m l es IH|] using node_ind';
    intros directory extensions pattern fl result Hq; try reflexivity.
  destruct l; [|reflexivity].
  rewrite scan_directory_Dir.
  revert result. induction es as [|[name e] es IHes]; intros result; [reflexivity|].
  apply Forall_cons in IH as [He Hes]. specialize (IHes Hes). cbn [snd] in He.
  cbn [scan_entries]. rewrite (read_cancelled_quiet fl Hq).
  destruct e as [sz| m' l' es' |].
  - destruct (ext_excluded _ _); [apply IHes|].
    destruct (pattern_excluded _ _); [apply IHes|].
    destruct sz; apply IHes.
  - destruct (pattern_excluded _ _).
    + pose proof (He (Path.join directory name) extensions pattern fl result Hq) as Hf.
      destruct (_scan_directory _ _ _ _ _ _) as [fl2 r2]. cbn in Hf. subst fl2. apply IHes.
    + pose proof (He (Path.join directory name) extensions None fl result Hq) as Hf.
      destruct (_scan_directory _ _ _ _ _ _) as [fl2 r2]. cbn in Hf. subst fl2. apply IHes.
  - apply IHes.
Qed.

Lemma depth_entries_quiet (rules : list string)
    (rec : node -> string -> Flag -> ScanResult -> Flag * ScanResult)
    (path : string) (now threshold : Z) (skips : list string)
    (es : list (string * node)) (fl : Flag) :
  quiet fl ->
  Forall (fun ne => forall p r, (rec ne.2 p fl r).1 = fl) es ->
  forall result, (depth_entries rules rec path now threshold skips es fl result).1 = fl.
Proof.
  intros Hq. induction 1 as [|[name e] es He Hes IH]; intros result; [reflexivity|].
  cbn [snd] in He. cbn [depth_entries]. rewrite (read_cancelled_quiet fl Hq).
  destruct e as [sz| m l es' |]; try apply IH.
  assert (Hdescend :
    (if Str.mem (Str.lower name) skips || Str.startswith name "."
     then depth_entries rules rec path now threshold skips es fl result
     else let '(fl2, r2) := rec (Dir m l es') (Path.join path name) fl result in
          depth_entries rules rec path now threshold skips es fl2 r2).1 = fl).
  { destruct (_ || _); [apply IH|].
    pose proof (He (Path.join path name) result) as Hf.
    destruct (rec _ _ _ _) as [fl2 r2]. cbn in Hf. subst fl2. apply IH. }
  destruct (Str.mem (Str.lower name) rules); [|exact Hdescend].
  destruct m as [mtime|]; [|apply IH].
  destruct (threshold <? now - mtime); [apply IH | exact Hdescend].
Qed.

Lemma depth_search_quiet (rules : list string) (now threshold : Z) (skips : list string)
    (max_depth : Z) (n : node) :
  forall path depth fl result,
    quiet fl ->
    (_depth_search rules n path now threshold skips depth max_depth fl result).1 = fl.
Proof.
  induction n as [sz|m l es IH|] using node_ind'; intros path depth fl result Hq;
    rewrite depth_search_eq, (read_cancelled_quiet fl Hq);
    destruct (false || (max_depth <? depth)); try reflexivity.
  destruct l; [|reflexivity].
  apply depth_entries_quiet; [exact Hq|].
  eapply Forall_impl; [exact IH|]. intros ne Hne p r. now apply Hne.
Qed.

(** ** The rule dispatcher *)

Lemma notify_fields (self : Scanner) (label : string) (percent : Z) :
  progress_callback (notify self label percent) = progress_callback self /\
  drive (notify self label percent) = drive self /\
  results (notify self label percent) = results self /\
  flag (notify self label percent) = flag self /\
  progress_calls (notify self label percent) =
    (progress_calls self ++
     (if progress_callback self then [(label, percent)] else []))%list.
Proof.
  unfold notify. destruct (progress_callback self) eqn:E; cbn;
    rewrite ?E, ?app_nil_r; split_and!; reflexivity.
Qed.

Section ScanAll.
Variable CLEANUP_ITEMS : list Item.t.
Variable DEVELOPER_CLEAN_RULES : list string.
Variable AGE_THRESHOLD_DAYS : Z.
Variable get_available_drives : list string.
Variable SHQueryRecycleBinW : option string -> QueryOutcome.
Variable fs : string -> option node.
Variable time_now : Z.

#[local] Abbreviation run_rule :=
  (scan_rule DEVELOPER_CLEAN_RULES AGE_THRESHOLD_DAYS get_available_drives
     SHQueryRecycleBinW fs time_now).
#[local] Abbreviation run_rules :=
  (scan_rules DEVELOPER_CLEAN_RULES AGE_THRESHOLD_DAYS get_available_drives
     SHQueryRecycleBinW fs time_now).
#[local] Abbreviation run_all :=
  (scan_all CLEANUP_ITEMS DEVELOPER_CLEAN_RULES AGE_THRESHOLD_DAYS get_available_drives
     SHQueryRecycleBinW fs time_now).

Lemma scan_targets_quiet (extensions : option (list string)) (pattern : option string)
    (targets : list string) (fl : Flag) :
  quiet fl -> forall result, (scan_targets fs extensions pattern targets fl result).1 = fl.
Proof.
  intros Hq. induction targets as [|path rest IH]; intros result; cbn [scan_targets];
    [reflexivity|].
  destruct (fs path) as [n|]; [|apply IH].
  pose proof (scan_directory_quiet n path extensions pattern fl result Hq) as Hf.
  destruct (_scan_directory _ _ _ _ _ _) as [fl1 r1]. cbn in Hf. subst fl1. apply IH.
Qed.

Lemma scan_templates_quiet (drive : string) (extensions : option (list string))
    (pattern : option string) (templates : list string) (fl : Flag) :
  quiet fl ->
  forall result,
    (scan_templates get_available_drives fs drive extensions pattern templates fl result).1
    = fl.
Proof.
  intros Hq. induction templates as [|t rest IH]; intros result; cbn [scan_templates];
    [reflexivity|].
  rewrite (read_cancelled_quiet fl Hq).
  pose proof (scan_targets_quiet extensions pattern
                (target_paths get_available_drives drive t) fl Hq result) as Hf.
  destruct (scan_targets _ _ _ _ _ _) as [fl1 r1]. cbn in Hf. subst fl1. apply IH.
Qed.

Lemma junk_drives_quiet (now threshold : Z) (drives : list string) (fl : Flag) :
  quiet fl ->
  forall result,
    (junk_drives DEVELOPER_CLEAN_RULES fs now threshold drives fl result).1 = fl.
Proof.
  intros Hq. induction drives as [|d rest IH]; intros result; cbn [junk_drives];
    [reflexivity|].
  destruct (fs (d +:+ "\")) as [n|]; [|apply IH].
  pose proof (depth_search_quiet DEVELOPER_CLEAN_RULES now threshold skip_dirs 6 n
                (d +:+ "\") 0 fl result Hq) as Hf.
  destruct (_depth_search _ _ _ _ _ _ _ _ _ _) as [fl1 r1]. cbn in Hf. subst fl1.
  rewrite (read_cancelled_quiet fl Hq). apply IH.
Qed.

Lemma scan_rule_quiet (drive : string) (item : Item.t) (fl : Flag) :
  quiet fl -> (run_rule drive item fl).1 = fl.
Proof.
  intros Hq. unfold scan_rule.
  destruct (special_is item "recycle_bin").
  - destruct (String.eqb drive "ALL"); reflexivity.
  - destruct (special_is item "developer_mode").
    + now apply junk_drives_quiet.
    + now apply scan_templates_quiet.
Qed.

(** Once the flag is set the loop over the rules does nothing more. *)
Lemma scan_rules_cancelled (total index : nat) (items : list Item.t) (self : Scanner) :
  _cancelled (flag self) = true -> run_rules total index items self = self.
Proof.
  intros Hc. destruct items as [|item rest]; [reflexivity|].
  cbn [scan_rules]. rewrite (read_cancelled_set _ Hc). now destruct self.
Qed.

(** The loop over a list of rules is the loop over its first rules
    followed by the loop over the others. *)
Lemma scan_rules_app (total : nat) (pre post : list Item.t) :
  forall index self,
    run_rules total index (pre ++ post) self =
    run_rules total (index + length pre) post (run_rules total index pre self).
Proof.
  induction pre as [|item pre IH]; intros index self.
  - cbn. now rewrite Nat.add_0_r.
  - cbn [app scan_rules length].
    destruct (read_cancelled (flag self)) as [[] fl1] eqn:Hread.
    + symmetry. apply scan_rules_cancelled. cbn. exact (read_cancelled_true _ _ Hread).
    + destruct (run_rule _ _ _) as [fl2 result].
      rewrite IH. f_equal. lia.
Qed.

(** What a run of the loop leaves: the notifications and the results of
    the first [k] rules, for some [k]; fewer than all only with the flag
    set, and all of them when the flag stays quiet. *)
Lemma scan_rules_run (total : nat) (items : list Item.t) :
  forall index self,
    exists k : nat,
      (k <= length items)%nat /\
      progress_calls (run_rules total index items self) =
        (progress_calls self ++
         (if progress_callback self then notifications total index (take k items) else []))%list /\
      dom (results (run_rules total index items self)) =
        dom (results self) ∪ ids (take k items) /\
      progress_callback (run_rules total index items self) = progress_callback self /\
      drive (run_rules total index items self) = drive self /\
      ((k < length items)%nat -> _cancelled (flag (run_rules total index items self)) = true) /\
      (quiet (flag self) ->
         k = length items /\ flag (run_rules total index items self) = flag self).
Proof.
  induction items as [|item rest IH]; intros index self.
  - exists 0%nat. cbn. unfold ids. cbn. split_and!.
    + lia.
    + destruct (progress_callback self); now rewrite app_nil_r.
    + set_solver.
    + reflexivity.
    + reflexivity.
    + lia.
    + intros _. split; reflexivity.
  - cbn [scan_rules].
    destruct (read_cancelled (flag self)) as [[] fl1] eqn:Hread.
    + exists 0%nat. cbn. unfold ids. cbn. split_and!.
      * lia.
      * destruct (progress_callback self); now rewrite app_nil_r.
      * set_solver.
      * reflexivity.
      * reflexivity.
      * intros _. exact (read_cancelled_true _ _ Hread).
      * intros Hq. rewrite (read_cancelled_quiet _ Hq) in Hread. discriminate Hread.
    + set (notified := notify (with_flag self fl1) (Item.name item)
                         (progress_percent index total)).
      destruct (run_rule (drive notified) item (flag notified)) as [fl2 result] eqn:Hrule.
      set (stored := with_results (with_flag notified fl2)
                       (<[Item.id item:=result]> (results notified))).
      destruct (IH (S index) stored)
        as (k & Hk & Hcalls & Hdom & Hcb & Hdrive & Hcancel & Hquiet).
      destruct (notify_fields (with_flag self fl1) (Item.name item)
                  (progress_percent index total))
        as (Ncb & Ndrive & Nres & Nflag & Ncalls).
      fold notified in Ncb, Ndrive, Nres, Nflag, Ncalls. cbn in Ncb, Ndrive, Nres, Nflag, Ncalls.
      assert (Hcb' : progress_callback stored = progress_callback self) by exact Ncb.
      assert (Hcalls' : progress_calls stored =
                (progress_calls self ++
                 (if progress_callback self
                  then [(Item.name item, progress_percent index total)] else []))%list)
        by exact Ncalls.
      assert (Hres' : results stored = <[Item.id item:=result]> (results self)).
      { unfold stored. cbn. now rewrite Nres. }
      assert (Hdrive' : drive stored = drive self) by exact Ndrive.
      assert (Hflag' : flag notified = fl1) by exact Nflag.
      assert (Hstored : flag stored = fl2) by reflexivity.
      exists (S k). cbn [length take notifications].
      rewrite Hcalls, Hdom, Hcb, Hdrive, Hcb', Hcalls', Hres', Hdrive'.
      split_and!.
      * lia.
      * rewrite <- app_assoc. destruct (progress_callback self); reflexivity.
      * rewrite dom_insert_L. unfold ids. cbn. set_solver.
      * reflexivity.
      * reflexivity.
      * intros Hlt. apply Hcancel. lia.
      * intros Hq.
        rewrite (read_cancelled_quiet _ Hq) in Hread. injection Hread as <-.
        rewrite Hflag' in Hrule.
        pose proof (scan_rule_quiet (drive notified) item (flag self) Hq) as Hf.
        rewrite Hrule in Hf. cbn in Hf.
        rewrite Hstored, Hf in Hquiet. destruct (Hquiet Hq) as [Hk' Hfl'].
        split; [f_equal; exact Hk' | exact Hfl'].
Qed.

Lemma scan_all_eq (self : Scanner) :
  run_all self =
  notify (run_rules (length CLEANUP_ITEMS) 0 CLEANUP_ITEMS (started self)) "扫描完成" 100.
Proof. reflexivity. Qed.

Lemma ids_take_subseteq (k : nat) (items : list Item.t) : ids (take k items) ⊆ ids items.
Proof.
  unfold ids. intros x. rewrite !elem_of_list_to_set, !list_elem_of_fmap.
  intros (y & -> & Hy). exists y. split; [reflexivity|].
  now apply (subseteq_take k items).
Qed.

(** C5: let the rules be [pre], then [item], then [post], and let the
    flag be seen set at the top of the loop when [item] is reached.
    Then [scan_all] dispatches nothing more: it returns the scanner as
    the loop had it on reaching [item], with the final notification
    added.  The mapping it returns holds results for rules of [pre]
    only, so the identifier of [item] and of every rule of [post] is
    absent from it, unless a rule of [pre] has the same identifier. *)
Theorem scan_all_stops_at_cancelled_rule (pre : list Item.t) (item : Item.t)
    (post : list Item.t) (self : Scanner) (fl1 : Flag) :
  CLEANUP_ITEMS = pre ++ item :: post ->
  let reached := run_rules (length CLEANUP_ITEMS) 0 pre (started self) in
  read_cancelled (flag reached) = (true, fl1) ->
  run_all self = notify (with_flag reached fl1) "扫描完成" 100 /\
  results (run_all self) = results reached /\
  dom (results (run_all self)) ⊆ ids pre /\
  (forall r, r ∈ item :: post -> Item.id r ∉ ids pre ->
             results (run_all self) !! Item.id r = None) /\
  progress_calls (run_all self) =
    (progress_calls reached ++
     (if progress_callback self then [("扫描完成", 100)] else []))%list.
Proof.
  intros Hitems reached Hread.
  assert (Hall : run_all self = notify (with_flag reached fl1) "扫描完成" 100).
  { rewrite scan_all_eq. f_equal. rewrite Hitems at 2. rewrite scan_rules_app.
    fold reached. cbn [scan_rules]. now rewrite Hread. }
  destruct (notify_fields (with_flag reached fl1) "扫描完成" 100)
    as (Ncb & _ & Nres & _ & Ncalls). cbn in Ncb, Nres, Ncalls.
  destruct (scan_rules_run (length CLEANUP_ITEMS) pre 0 (started self))
    as (k & _ & _ & Hdom & Hcb & _).
  fold reached in Hdom, Hcb. cbn in Hdom, Hcb.
  assert (Hsub : dom (results reached) ⊆ ids pre).
  { rewrite Hdom. pose proof (ids_take_subseteq k pre). set_solver. }
  rewrite Hall, Nres, Ncalls, Hcb. split_and!; try reflexivity.
  - exact Hsub.
  - intros r _ Hr. apply not_elem_of_dom. intros Hin. apply Hr, Hsub, Hin.
Qed.


(** C10: a [cancel()] issued before [scan_all] starts changes nothing:
    the run is the run of the scanner that was not cancelled.  So when
    no [cancel()] arrives after the start, the run is not stopped: the
    flag is clear at the end, every rule has its result and, when a
    callback is configured, its notification. *)
Theorem cancel_before_scan_all (self : Scanner) :
  run_all (cancel self) = run_all self /\
  (pending_cancel (flag self) = None ->
   _cancelled (flag (run_all (cancel self))) = false /\
   dom (results (run_all (cancel self))) = ids CLEANUP_ITEMS /\
   progress_calls (run_all (cancel self)) =
     (progress_calls self ++
      (if progress_callback self
       then notifications (length CLEANUP_ITEMS) 0 CLEANUP_ITEMS ++ [("扫描完成", 100)]
       else []))%list).
Proof.
  assert (Heq : run_all (cancel self) = run_all self) by reflexivity.
  split; [exact Heq|]. intros Hpending. rewrite Heq, scan_all_eq.
  assert (Hq : quiet (flag (started self))) by (split; [reflexivity | exact Hpending]).
  destruct (scan_rules_run (length CLEANUP_ITEMS) CLEANUP_ITEMS 0 (started self))
    as (k & _ & Hcalls & Hdom & Hcb & _ & _ & Hquiet).
  destruct (Hquiet Hq) as [-> Hflag]. rewrite take_ge in Hcalls, Hdom by lia.
  cbn in Hcalls, Hdom, Hcb.
  destruct (notify_fields
              (run_rules (length CLEANUP_ITEMS) 0 CLEANUP_ITEMS (started self))
              "扫描完成" 100) as (_ & _ & Nres & Nflag & Ncalls).
  rewrite Nres, Nflag, Ncalls, Hflag, Hdom, Hcalls, Hcb. split_and!.
  - reflexivity.
  - set_solver.
  - destruct (progress_callback self); [|now rewrite !app_nil_r].
    now rewrite <- app_assoc.
Qed.

End ScanAll.

(** Two rules, and a [cancel()] that lands after the first read of the
    flag: the second rule is absent from the mapping. *)
Lemma scan_all_stops_at_cancelled_rule_witness :
  let self := Scanner_init true "C:" (Some 1%nat) in
  let final :=
    scan_all [bin_rule "a"; bin_rule "b"] [] 30 ["C:"] example_query example_fs 0 self in
  results final !! "b" = None /\ is_Some (results final !! "a").
Proof.
  intros self final.
  destruct (scan_all_stops_at_cancelled_rule
              [bin_rule "a"; bin_rule "b"] [] 30 ["C:"] example_query example_fs 0
              [bin_rule "a"] (bin_rule "b") [] self (mkFlag true None)
              eq_refl eq_refl) as (_ & _ & _ & H & _).
  split.
  - apply (H (bin_rule "b")); [left|].
    intros Hin. apply elem_of_list_to_set, list_elem_of_In in Hin.
    destruct Hin as [E|[]]. discriminate E.
  - vm_compute. eexists. reflexivity.
Defined.



Lemma cancel_before_scan_all_witness :
  let self := Scanner_init true "C:" None in
  let final :=
    scan_all example_rules ["node_modules"] 30 ["C:"] example_query example_fs 100
      (cancel self) in
  _cancelled (flag final) = false /\
  dom (results final) = ids example_rules.
Proof.
  intros self final.
  destruct (cancel_before_scan_all example_rules ["node_modules"] 30 ["C:"] example_query
              example_fs 100 self) as (_ & H).
  destruct (H eq_refl) as (H1 & H2 & _). split; [exact H1 | exact H2].
Defined.

(** ** What a scan finds, and what cancellation leaves of it *)

Lemma count_all_app (r : ScanResult) (l1 l2 : list (string * Z)) :
  count_all r (l1 ++ l2) = count_all (count_all r l1) l2.
Proof. unfold count_all. apply fold_left_app. Qed.

Lemma count_all_cons (r : ScanResult) (m : string * Z) (l : list (string * Z)) :
  count_all r (m :: l) = count_all (count r m.2 m.1) l.
Proof. reflexivity. Qed.

Lemma count_all_fields (l : list (string * Z)) :
  forall r,
    item_id (count_all r l) = item_id r /\
    item_name (count_all r l) = item_name r /\
    error (count_all r l) = error r /\
    total_size (count_all r l) = total_size r + sum_sizes (l.*2) /\
    file_count (count_all r l) = file_count r + Z.of_nat (length l) /\
    files (count_all r l) = files r ++ l.*1.
Proof.
  induction l as [|m l IH]; intros r.
  - cbn. rewrite app_nil_r. split_and!; try reflexivity; lia.
  - rewrite count_all_cons.
    destruct (IH (count r m.2 m.1)) as (H1 & H2 & H3 & H4 & H5 & H6).
    rewrite H1, H2, H3, H4, H5, H6. cbn [count item_id item_name error total_size
      file_count files fmap list_fmap length sum_sizes fold_right].
    split_and!; try reflexivity.
    + unfold sum_sizes. lia.
    + lia.
    + now rewrite <- app_assoc.
Qed.

Lemma passes_extension_filter_eq (extensions : option (list string)) (path : string) :
  passes_extension_filter extensions path = negb (ext_excluded extensions path).
Proof.
  unfold passes_extension_filter, ext_excluded.
  destruct extensions as [[|e exts]|]; try reflexivity. now rewrite negb_involutive.
Qed.

Lemma passes_pattern_filter_eq (pattern : option string) (path : string) :
  passes_pattern_filter pattern path = negb (pattern_excluded pattern path).
Proof.
  unfold passes_pattern_filter, pattern_excluded.
  destruct pattern as [[|a p]|]; try reflexivity. now rewrite negb_involutive.
Qed.

(** With the flag set, the listing loops stop at once. *)
Lemma scan_entries_cancelled
    (rec : node -> string -> option string -> Flag -> ScanResult -> Flag * ScanResult)
    (directory : string) (extensions : option (list string)) (pattern : option string)
    (es : list (string * node)) (fl : Flag) (result : ScanResult) :
  _cancelled fl = true ->
  scan_entries rec directory extensions pattern es fl result = (fl, result).
Proof.
  intros Hc. destruct es as [|[name e] es]; [reflexivity|].
  cbn [scan_entries]. now rewrite (read_cancelled_set fl Hc).
Qed.

Lemma depth_entries_cancelled (rules : list string)
    (rec : node -> string -> Flag -> ScanResult -> Flag * ScanResult)
    (path : string) (now threshold : Z) (skips : list string)
    (es : list (string * node)) (fl : Flag) (result : ScanResult) :
  _cancelled fl = true ->
  depth_entries rules rec path now threshold skips es fl result = (fl, result).
Proof.
  intros Hc. destruct es as [|[name e] es]; [reflexivity|].
  cbn [depth_entries]. now rewrite (read_cancelled_set fl Hc).
Qed.

(** The generic scanner counts the first [k] matches, for some [k], and
    all of them unless it leaves with the flag set.  The pattern the
    call is made with is the rule's, or none below a directory whose
    path holds the rule's pattern. *)
Lemma scan_directory_run (extensions : option (list string)) (pattern : option string)
    (n : node) :
  forall directory pat fl result,
    pat = pattern \/ (pat = None /\ pattern_excluded pattern directory = false) ->
    exists k : nat,
      (k <= length (matched_files n directory extensions pattern))%nat /\
      (_scan_directory n directory extensions pat fl result).2 =
        count_all result (take k (matched_files n directory extensions pattern)) /\
      (_cancelled (_scan_directory n directory extensions pat fl result).1 = false ->
       k = length (matched_files n directory extensions pattern)).
Proof.
  induction n as [sz|m l es IH|] using node_ind'; intros directory pat fl result Hpat;
    try (exists 0%nat; cbn; split_and!; [lia | reflexivity | reflexivity]).
  destruct l; [|exists 0%nat; cbn; split_and!; [lia | reflexivity | reflexivity]].
  rewrite scan_directory_Dir. cbn [matched_files].
  revert fl result. induction es as [|[name e] es IHes]; intros fl result.
  { exists 0%nat. cbn. split_and!; [lia | reflexivity | reflexivity]. }
  apply Forall_cons in IH as [He Hes]. specialize (IHes Hes). cbn [snd] in He.
  cbn [scan_entries flat_map].
  destruct (read_cancelled fl) as [[] fl1] eqn:Hread.
  { exists 0%nat. cbn. split_and!; [lia | reflexivity |].
    intros Hc. rewrite (read_cancelled_true _ _ Hread) in Hc. discriminate Hc. }
  set (path := Path.join directory name).
  assert (Hext : ext_excluded extensions path = negb (passes_extension_filter extensions path))
    by (rewrite passes_extension_filter_eq; now rewrite negb_involutive).
  assert (Hpatf : pattern_excluded pat path = negb (passes_pattern_filter pattern path)).
  { rewrite passes_pattern_filter_eq, negb_involutive.
    destruct Hpat as [->|[-> Hcov]]; [reflexivity|].
    symmetry. exact (pattern_excluded_join pattern directory name Hcov). }
  destruct e as [[size|]| m' l' es' |].
  - rewrite Hext, Hpatf.
    destruct (passes_extension_filter extensions path); cbn [negb andb];
      [destruct (passes_pattern_filter pattern path); cbn [negb]|].
    + destruct (IHes fl1 (count result (Z.of_N size) path)) as (k & Hk & Hres & Hall).
      exists (S k). cbn [app length take]. split_and!; [lia | exact Hres |].
      intros Hc. now rewrite (Hall Hc).
    + apply IHes.
    + apply IHes.
  - rewrite Hext, Hpatf.
    destruct (negb (passes_extension_filter extensions path)); [apply IHes|].
    destruct (negb (passes_pattern_filter pattern path)); apply IHes.
  - set (Me := matched_files (Dir m' l' es') path extensions pattern).
    assert (Hrec : exists pat',
               (if pattern_excluded pat path
                then _scan_directory (Dir m' l' es') path extensions pat fl1 result
                else _scan_directory (Dir m' l' es') path extensions None fl1 result) =
               _scan_directory (Dir m' l' es') path extensions pat' fl1 result /\
               (pat' = pattern \/ (pat' = None /\ pattern_excluded pattern path = false))).
    { destruct (pattern_excluded pat path) eqn:Hex.
      - exists pat. split; [reflexivity|].
        destruct Hpat as [->|[-> Hcov]]; [now left | discriminate Hex].
      - exists None. split; [reflexivity|]. right. split; [reflexivity|].
        destruct Hpat as [->|[-> Hcov]]; [exact Hex|].
        exact (pattern_excluded_join pattern directory name Hcov). }
    destruct Hrec as (pat' & -> & Hpat').
    destruct (He path pat' fl1 result Hpat') as (k1 & Hk1 & Hres1 & Hall1).
    fold Me in Hk1, Hres1, Hall1.
    destruct (_scan_directory (Dir m' l' es') path extensions pat' fl1 result)
      as [fl2 r2]. cbn [fst snd] in Hres1, Hall1.
    destruct (_cancelled fl2) eqn:Hc2.
    + rewrite scan_entries_cancelled by exact Hc2.
      exists k1. rewrite length_app, take_app_le by exact Hk1. cbn [fst snd].
      split_and!; [lia | exact Hres1 | intros Hc; rewrite Hc2 in Hc; discriminate Hc].
    + specialize (Hall1 eq_refl). subst k1.
      destruct (IHes fl2 r2) as (k & Hk & Hres & Hall).
      exists (length Me + k)%nat. rewrite length_app, take_app_add.
      split_and!; [lia | | intros Hc; now rewrite (Hall Hc)].
      rewrite Hres, Hres1, count_all_app. now rewrite take_ge by lia.
  - apply IHes.
Qed.

Lemma runs_nil (fl : Flag) (result : ScanResult) : runs [] fl result (fl, result).
Proof.
  split; [reflexivity|]. exists 0%nat. cbn. split_and!; [lia | reflexivity | reflexivity].
Qed.

Lemma runs_seq (M1 M2 : list (string * Z)) (fl : Flag) (result : ScanResult)
    (out1 out2 : Flag * ScanResult) :
  runs M1 fl result out1 -> runs M2 out1.1 out1.2 out2 -> runs (M1 ++ M2) fl result out2.
Proof.
  intros [Hc1 (k1 & Hk1 & Hres1 & Hall1)] [Hc2 (k2 & Hk2 & Hres2 & Hall2)]. split.
  - intros Hc. specialize (Hc1 Hc). subst out1. cbn in Hc2. now apply Hc2.
  - destruct (_cancelled out1.1) eqn:Hcancel.
    + specialize (Hc2 eq_refl). subst out2.
      exists k1. rewrite length_app, take_app_le by exact Hk1. cbn [fst snd].
      split_and!; [lia | exact Hres1 | intros Hc; rewrite Hcancel in Hc; discriminate Hc].
    + specialize (Hall1 eq_refl). subst k1.
      exists (length M1 + k2)%nat. rewrite length_app, take_app_add.
      split_and!; [lia | | intros Hc; now rewrite (Hall2 Hc)].
      rewrite Hres2, Hres1, count_all_app. now rewrite take_ge by lia.
Qed.

(** A match counted before the traversal goes on. *)
Lemma runs_count (m : string * Z) (M : list (string * Z)) (fl : Flag)
    (result : ScanResult) (out : Flag * ScanResult) :
  _cancelled fl = false ->
  runs M fl (count result m.2 m.1) out -> runs (m :: M) fl result out.
Proof.
  intros Hfl [_ (k & Hk & Hres & Hall)]. split.
  - intros Hc. rewrite Hfl in Hc. discriminate Hc.
  - exists (S k). cbn [length take]. split_and!; [lia | exact Hres |].
    intros Hc. now rewrite (Hall Hc).
Qed.

(** A read of the flag in front of a traversal. *)
Lemma runs_read (M : list (string * Z)) (fl : Flag) (result : ScanResult)
    (body : Flag -> Flag * ScanResult) :
  (forall fl1, read_cancelled fl = (false, fl1) -> runs M fl1 result (body fl1)) ->
  runs M fl result
    (let '(c, fl1) := read_cancelled fl in if c then (fl1, result) else body fl1).
Proof.
  intros Hbody. destruct (read_cancelled fl) as [[] fl1] eqn:Hread.
  - split.
    + intros Hc. rewrite (read_cancelled_set fl Hc) in Hread. now injection Hread as <-.
    + exists 0%nat. cbn. split_and!; [lia | reflexivity |].
      intros Hc. rewrite (read_cancelled_true _ _ Hread) in Hc. discriminate Hc.
  - destruct (Hbody fl1 eq_refl) as [_ Hk]. split; [|exact Hk].
    intros Hc. rewrite (read_cancelled_set fl Hc) in Hread. discriminate Hread.
Qed.

Lemma read_cancelled_clear (fl fl1 : Flag) :
  read_cancelled fl = (false, fl1) -> _cancelled fl1 = false.
Proof.
  unfold read_cancelled. destruct (_cancelled fl) eqn:E; [discriminate|].
  destruct (pending_cancel fl) as [[|k]|]; intros [= <-]; [reflexivity | exact E].
Qed.

Lemma scan_directory_cancelled (n : node) (directory : string)
    (extensions : option (list string)) (pattern : option string)
    (fl : Flag) (result : ScanResult) :
  _cancelled fl = true ->
  _scan_directory n directory extensions pattern fl result = (fl, result).
Proof.
  intros Hc. destruct n as [sz|m [] es|]; try reflexivity.
  rewrite scan_directory_Dir. now apply scan_entries_cancelled.
Qed.

Lemma scan_directory_runs (extensions : option (list string)) (pattern : option string)
    (n : node) (directory : string) (fl : Flag) (result : ScanResult) :
  runs (matched_files n directory extensions pattern) fl result
       (_scan_directory n directory extensions pattern fl result).
Proof.
  split.
  - apply scan_directory_cancelled.
  - apply scan_directory_run. now left.
Qed.

Section Runs.
Variable get_available_drives : list string.
Variable fs : string -> option node.

Lemma scan_targets_runs (extensions : option (list string)) (pattern : option string)
    (targets : list string) :
  forall fl result,
    runs (flat_map (fun path =>
                      match fs path with
                      | Some n => matched_files n path extensions pattern
                      | None => []
                      end) targets)
         fl result (scan_targets fs extensions pattern targets fl result).
Proof.
  induction targets as [|path rest IH]; intros fl result; cbn [scan_targets flat_map].
  - apply runs_nil.
  - destruct (fs path) as [n|]; [|apply IH].
    pose proof (scan_directory_runs extensions pattern n path fl result) as H1.
    destruct (_scan_directory n path extensions pattern fl result) as [fl1 r1] eqn:E.
    eapply runs_seq; [exact H1 | apply IH].
Qed.

Lemma scan_templates_runs (drive : string) (item : Item.t) (templates : list string) :
  forall fl result,
    runs (flat_map (fun path_template =>
                      flat_map (fun path =>
                                  match fs path with
                                  | Some n => matched_files n path (Item.extensions item)
                                                (Item.pattern item)
                                  | None => []
                                  end)
                        (target_paths get_available_drives drive path_template))
            templates)
         fl result
         (scan_templates get_available_drives fs drive (Item.extensions item)
            (Item.pattern item) templates fl result).
Proof.
  induction templates as [|t rest IH]; intros fl result; cbn [scan_templates flat_map].
  - apply runs_nil.
  - apply (runs_read _ fl result
             (fun fl1 =>
                let '(fl2, r2) :=
                  scan_targets fs (Item.extensions item) (Item.pattern item)
                    (target_paths get_available_drives drive t) fl1 result in
                scan_templates get_available_drives fs drive (Item.extensions item)
                  (Item.pattern item) rest fl2 r2)).
    intros fl1 Hread.
    pose proof (scan_targets_runs (Item.extensions item) (Item.pattern item)
                  (target_paths get_available_drives drive t) fl1 result) as H1.
    destruct (scan_targets _ _ _ _ _ _) as [fl2 r2].
    eapply runs_seq; [exact H1 | apply IH].
Qed.

End Runs.

Lemma runs_read_or (M : list (string * Z)) (fl : Flag) (result : ScanResult) (b : bool)
    (body : Flag -> Flag * ScanResult) :
  (b = true -> M = []) ->
  (b = false -> forall fl1, read_cancelled fl = (false, fl1) -> runs M fl1 result (body fl1)) ->
  runs M fl result
    (let '(c, fl1) := read_cancelled fl in if c || b then (fl1, result) else body fl1).
Proof.
  intros Hb Hbody. destruct (read_cancelled fl) as [[] fl1] eqn:Hread; cbn [orb].
  - split.
    + intros Hc. rewrite (read_cancelled_set fl Hc) in Hread. now injection Hread as <-.
    + exists 0%nat. cbn. split_and!; [lia | reflexivity |].
      intros Hc. rewrite (read_cancelled_true _ _ Hread) in Hc. discriminate Hc.
  - destruct b.
    + rewrite (Hb eq_refl). split.
      * intros Hc. rewrite (read_cancelled_set fl Hc) in Hread. discriminate Hread.
      * exists 0%nat. cbn. split_and!; [lia | reflexivity | reflexivity].
    + destruct (Hbody eq_refl fl1 eq_refl) as [_ Hk]. split; [|exact Hk].
      intros Hc. rewrite (read_cancelled_set fl Hc) in Hread. discriminate Hread.
Qed.

Lemma depth_entries_runs (rules : list string)
    (rec : node -> string -> Flag -> ScanResult -> Flag * ScanResult)
    (inside : node -> string -> list (string * Z))
    (path : string) (now threshold : Z) (skips : list string)
    (es : list (string * node)) :
  Forall (fun ne => forall p fl r, runs (inside ne.2 p) fl r (rec ne.2 p fl r)) es ->
  forall fl result,
    runs (flat_map (fun ne : string * node =>
                      match ne with
                      | (name, (Dir st_mtime _ _) as d) =>
                          let within :=
                            if Str.mem (Str.lower name) skips || Str.startswith name "."
                            then []
                            else inside d (Path.join path name) in
                          if Str.mem (Str.lower name) rules then
                            match st_mtime with
                            | None => []
                            | Some mtime =>
                                if threshold <? now - mtime
                                then [(Path.join path name, _get_dir_size_for_scan d)]
                                else within
                            end
                          else within
                      | _ => []
                      end) es)
         fl result (depth_entries rules rec path now threshold skips es fl result).
Proof.
  induction 1 as [|[name e] es He Hes IH]; intros fl result; [apply runs_nil|].
  cbn [snd] in He. cbn [depth_entries flat_map].
  match goal with
  | |- runs ?M _ _ (let '(c, fl1) := read_cancelled fl in if c then _ else @?body fl1) =>
      apply (runs_read M fl result body)
  end.
  intros fl1 Hread. pose proof (read_cancelled_clear _ _ Hread) as Hclear.
  destruct e as [sz| m l es' |]; try apply IH.
  assert (Hdescend :
    runs ((if Str.mem (Str.lower name) skips || Str.startswith name "."
           then [] else inside (Dir m l es') (Path.join path name)) ++
          flat_map (fun ne : string * node =>
                      match ne with
                      | (name, (Dir st_mtime _ _) as d) =>
                          let within :=
                            if Str.mem (Str.lower name) skips || Str.startswith name "."
                            then []
                            else inside d (Path.join path name) in
                          if Str.mem (Str.lower name) rules then
                            match st_mtime with
                            | None => []
                            | Some mtime =>
                                if threshold <? now - mtime
                                then [(Path.join path name, _get_dir_size_for_scan d)]
                                else within
                            end
                          else within
                      | _ => []
                      end) es)
         fl1 result
         (if Str.mem (Str.lower name) skips || Str.startswith name "."
          then depth_entries rules rec path now threshold skips es fl1 result
          else let '(fl2, r2) := rec (Dir m l es') (Path.join path name) fl1 result in
               depth_entries rules rec path now threshold skips es fl2 r2)).
  { destruct (_ || _); [apply IH|].
    pose proof (He (Path.join path name) fl1 result) as H1.
    destruct (rec _ _ _ _) as [fl2 r2]. eapply runs_seq; [exact H1 | apply IH]. }
  cbv zeta.
  destruct (Str.mem (Str.lower name) rules); [|exact Hdescend].
  destruct m as [mtime|]; [|apply IH].
  destruct (threshold <? now - mtime); [|exact Hdescend].
  apply (runs_count (Path.join path name, _get_dir_size_for_scan (Dir (Some mtime) l es'))
           _ fl1 result); [exact Hclear | apply IH].
Qed.

Lemma depth_search_runs (rules : list string) (now threshold : Z) (skips : list string)
    (max_depth : Z) (n : node) :
  forall path depth fl result,
    runs (junk_matches rules n path now threshold skips depth max_depth) fl result
         (_depth_search rules n path now threshold skips depth max_depth fl result).
Proof.
  induction n as [sz|m l es IH|] using node_ind'; intros path depth fl result;
    rewrite depth_search_eq.
  - apply (runs_read_or _ fl result (max_depth <? depth) (fun fl1 => (fl1, result))).
    + cbn. now intros ->.
    + intros Hb fl1 _. cbn. rewrite Hb. apply runs_nil.
  - apply (runs_read_or _ fl result (max_depth <? depth)
             (fun fl1 =>
                match l with
                | true =>
                    depth_entries rules
                      (fun e p =>
                         _depth_search rules e p now threshold skips (depth + 1) max_depth)
                      path now threshold skips es fl1 result
                | false => (fl1, result)
                end)).
    + cbn. now intros ->.
    + intros Hb fl1 _. cbn [junk_matches]. rewrite Hb.
      destruct l; [|apply runs_nil].
      apply (depth_entries_runs rules _
               (fun d p => junk_matches rules d p now threshold skips (depth + 1) max_depth)).
      eapply Forall_impl; [exact IH|]. intros ne Hne p fl' r. apply Hne.
  - apply (runs_read_or _ fl result (max_depth <? depth) (fun fl1 => (fl1, result))).
    + cbn. now intros ->.
    + intros Hb fl1 _. cbn. rewrite Hb. apply runs_nil.
Qed.

Lemma junk_drives_runs (rules : list string) (fs : string -> option node)
    (now threshold : Z) (drives : list string) :
  forall fl result,
    runs (drive_matches rules fs now threshold drives) fl result
         (junk_drives rules fs now threshold drives fl result).
Proof.
  unfold drive_matches.
  induction drives as [|d rest IH]; intros fl result; cbn [junk_drives flat_map].
  - apply runs_nil.
  - destruct (fs (d +:+ "\")) as [n|]; [|apply IH].
    pose proof (depth_search_runs rules now threshold skip_dirs 6 n (d +:+ "\") 0 fl result)
      as H1.
    destruct (_depth_search _ _ _ _ _ _ _ _ _ _) as [fl1 r1].
    eapply runs_seq; [exact H1|]. cbn [fst snd].
    apply (runs_read _ fl1 r1 (fun fl2 => junk_drives rules fs now threshold rest fl2 r1)).
    intros fl2 _. apply IH.
Qed.

(** What [runs] says of a scan that starts from a fresh result. *)
Lemma runs_fresh (M : list (string * Z)) (fl : Flag) (id name : string)
    (out : Flag * ScanResult) :
  runs M fl (new_result id name) out ->
  exists k : nat,
    (k <= length M)%nat /\
    out.2 = count_all (new_result id name) (take k M) /\
    files out.2 = (take k M).*1 /\
    total_size out.2 = sum_sizes ((take k M).*2) /\
    file_count out.2 = Z.of_nat k /\
    item_id out.2 = id /\ item_name out.2 = name /\ error out.2 = None /\
    (_cancelled out.1 = false -> k = length M).
Proof.
  intros [_ (k & Hk & Hres & Hall)]. exists k.
  destruct (count_all_fields (take k M) (new_result id name)) as (H1 & H2 & H3 & H4 & H5 & H6).
  rewrite Hres, H1, H2, H3, H4, H5, H6, length_take_le by exact Hk. cbn.
  split_and!; try reflexivity; assumption.
Qed.












(** ** The mapping of a run *)

Lemma store_all_lookup_other (run : Item.t -> ScanResult) (items : list Item.t) :
  forall (rs : gmap string ScanResult) (id : string),
    id ∉ Item.id <$> items -> store_all run items rs !! id = rs !! id.
Proof.
  unfold store_all. induction items as [|item rest IH]; intros rs id Hid; [reflexivity|].
  cbn [fold_left]. rewrite fmap_cons, not_elem_of_cons in Hid. destruct Hid as [Hne Hid].
  rewrite IH by exact Hid. now apply lookup_insert_ne.
Qed.

Lemma store_all_lookup (run : Item.t -> ScanResult) (items : list Item.t) :
  forall (rs : gmap string ScanResult) (item : Item.t),
    NoDup (Item.id <$> items) -> item ∈ items ->
    store_all run items rs !! Item.id item = Some (run item).
Proof.
  induction items as [|first rest IH]; intros rs item Hnodup Hin.
  - now apply elem_of_nil in Hin.
  - rewrite fmap_cons in Hnodup. apply NoDup_cons in Hnodup as [Hfirst Hnodup].
    apply elem_of_cons in Hin as [->|Hin].
    + change (store_all run (first :: rest) rs)
        with (store_all run rest (<[Item.id first:=run first]> rs)).
      rewrite store_all_lookup_other by exact Hfirst. apply lookup_insert_eq.
    + change (store_all run (first :: rest) rs)
        with (store_all run rest (<[Item.id first:=run first]> rs)).
      now apply IH.
Qed.

Section Mapping.
Variable CLEANUP_ITEMS : list Item.t.
Variable DEVELOPER_CLEAN_RULES : list string.
Variable AGE_THRESHOLD_DAYS : Z.
Variable get_available_drives : list string.
Variable SHQueryRecycleBinW : option string -> QueryOutcome.
Variable fs : string -> option node.
Variable time_now : Z.

#[local] Abbreviation the_rule :=
  (scan_rule DEVELOPER_CLEAN_RULES AGE_THRESHOLD_DAYS get_available_drives
     SHQueryRecycleBinW fs time_now).
#[local] Abbreviation the_rules :=
  (scan_rules DEVELOPER_CLEAN_RULES AGE_THRESHOLD_DAYS get_available_drives
     SHQueryRecycleBinW fs time_now).
#[local] Abbreviation the_scan :=
  (scan_all CLEANUP_ITEMS DEVELOPER_CLEAN_RULES AGE_THRESHOLD_DAYS get_available_drives
     SHQueryRecycleBinW fs time_now).

(** While the flag stays quiet the loop stores, rule after rule, what
    each rule finds on its own. *)
Lemma scan_rules_quiet_results (total : nat) (items : list Item.t) :
  forall index self,
    quiet (flag self) ->
    results (the_rules total index items self) =
      store_all (fun item => (the_rule (drive self) item (flag self)).2) items (results self) /\
    flag (the_rules total index items self) = flag self /\
    drive (the_rules total index items self) = drive self.
Proof.
  induction items as [|item rest IH]; intros index self Hq; [split_and!; reflexivity|].
  cbn [scan_rules]. rewrite (read_cancelled_quiet _ Hq).
  destruct (notify_fields (with_flag self (flag self)) (Item.name item)
              (progress_percent index total)) as (_ & Ndrive & Nres & Nflag & _).
  cbn in Ndrive, Nres, Nflag. rewrite Ndrive, Nflag.
  pose proof (scan_rule_quiet DEVELOPER_CLEAN_RULES AGE_THRESHOLD_DAYS get_available_drives
                SHQueryRecycleBinW fs time_now (drive self) item (flag self) Hq) as Hfl.
  destruct (the_rule (drive self) item (flag self)) as [fl2 result] eqn:Hrule.
  cbn [fst] in Hfl. subst fl2.
  match goal with
  | |- context [the_rules total (S index) rest ?s] => destruct (IH (S index) s) as (H1 & H2 & H3)
  end.
  { exact Hq. }
  rewrite H1, H2, H3. cbn [results flag drive with_results with_flag].
  rewrite Ndrive, Nres. split_and!; try reflexivity.
  unfold store_all. cbn [fold_left]. now rewrite Hrule.
Qed.

(** X7: when no [cancel()] arrives during the run and the rules have
    distinct identifiers, the mapping [scan_all] returns holds, for each
    rule, exactly what that rule finds when it is scanned on its own:
    the rules do not interact. *)
Theorem scan_all_uncancelled_results (self : Scanner) (item : Item.t) :
  pending_cancel (flag self) = None ->
  NoDup (Item.id <$> CLEANUP_ITEMS) ->
  item ∈ CLEANUP_ITEMS ->
  results (the_scan self) !! Item.id item =
    Some (the_rule (drive self) item clear_flag).2.
Proof.
  intros Hpending Hnodup Hin.
  assert (Hq : quiet (flag (started self))) by (split; [reflexivity | exact Hpending]).
  rewrite scan_all_eq.
  destruct (notify_fields
              (the_rules (length CLEANUP_ITEMS) 0 CLEANUP_ITEMS (started self))
              "扫描完成" 100) as (_ & _ & Nres & _).
  rewrite Nres.
  destruct (scan_rules_quiet_results (length CLEANUP_ITEMS) CLEANUP_ITEMS 0
              (started self) Hq) as (Hres & _).
  rewrite Hres.
  rewrite (store_all_lookup _ CLEANUP_ITEMS _ item Hnodup Hin).
  cbn [started drive flag with_results with_flag]. rewrite Hpending. reflexivity.
Qed.


End Mapping.

Lemma scan_all_uncancelled_results_witness :
  results (scan_all example_rules ["node_modules"] 0 ["C:"] example_query example_fs 100
             (Scanner_init true "c:\" None)) !! "dev" =
  Some {| item_id := "dev"; item_name := "开发者垃圾"; total_size := 7; file_count := 1;
          files := ["C:\proj\node_modules"]; error := None |}.
Proof.
  assert (Hnodup : NoDup (Item.id <$> example_rules)).
  { apply (bool_decide_unpack _). vm_compute. exact I. }
  assert (Hin : dev_rule ∈ example_rules).
  { unfold example_rules. rewrite !elem_of_cons. right. right. now left. }
  pose proof (scan_all_uncancelled_results example_rules ["node_modules"] 0 ["C:"]
                example_query example_fs 100 (Scanner_init true "c:\" None) dev_rule
                eq_refl Hnodup Hin) as H.
  change (Item.id dev_rule) with "dev" in H. rewrite H. reflexivity.
Defined.


Section Invariants.
Variable CLEANUP_ITEMS : list Item.t.
Variable DEVELOPER_CLEAN_RULES : list string.
Variable AGE_THRESHOLD_DAYS : Z.
Variable get_available_drives : list string.
Variable SHQueryRecycleBinW : option string -> QueryOutcome.
Variable fs : string -> option node.
Variable time_now : Z.

#[local] Abbreviation a_rule :=
  (scan_rule DEVELOPER_CLEAN_RULES AGE_THRESHOLD_DAYS get_available_drives
     SHQueryRecycleBinW fs time_now).
#[local] Abbreviation some_rules :=
  (scan_rules DEVELOPER_CLEAN_RULES AGE_THRESHOLD_DAYS get_available_drives
     SHQueryRecycleBinW fs time_now).
#[local] Abbreviation a_scan :=
  (scan_all CLEANUP_ITEMS DEVELOPER_CLEAN_RULES AGE_THRESHOLD_DAYS get_available_drives
     SHQueryRecycleBinW fs time_now).

(** Whatever the flag does, the result of a rule carries the rule's
    identifier and name. *)
Lemma scan_rule_identity (drive : string) (item : Item.t) (fl : Flag) :
  item_id (a_rule drive item fl).2 = Item.id item /\
  item_name (a_rule drive item fl).2 = Item.name item.
Proof.
  unfold scan_rule. destruct (special_is item "recycle_bin").
  - unfold _scan_recycle_bin.
    destruct (String.eqb drive "ALL");
      match goal with
      | |- context [SHQueryRecycleBinW ?dp] =>
          destruct (SHQueryRecycleBinW dp) as [ret size num|msg];
            [destruct (ret =? 0)|]; split; reflexivity
      end.
  - destruct (special_is item "developer_mode").
    + destruct (runs_fresh _ _ _ _ _
                  (junk_drives_runs DEVELOPER_CLEAN_RULES fs time_now
                     (AGE_THRESHOLD_DAYS * 24 * 3600)
                     (if String.eqb drive "ALL" then get_available_drives else [drive]) fl
                     (new_result (Item.id item) (Item.name item))))
        as (k & _ & _ & _ & _ & _ & Hid & Hname & _).
      split; [exact Hid | exact Hname].
    + destruct (runs_fresh _ _ _ _ _
                  (scan_templates_runs get_available_drives fs drive item (Item.paths item) fl
                     (new_result (Item.id item) (Item.name item))))
        as (k & _ & _ & _ & _ & _ & Hid & Hname & _).
      split; [exact Hid | exact Hname].
Qed.

(** When the platform reports no negative size, no rule does. *)
Lemma scan_rule_nonneg (drive : string) (item : Item.t) (fl : Flag) :
  (forall dp ret size num, SHQueryRecycleBinW dp = Returned ret size num -> 0 <= size) ->
  0 <= total_size (a_rule drive item fl).2.
Proof.
  intros Hplatform. unfold scan_rule. destruct (special_is item "recycle_bin").
  - unfold _scan_recycle_bin.
    destruct (String.eqb drive "ALL");
      match goal with
      | |- context [SHQueryRecycleBinW ?dp] =>
          destruct (SHQueryRecycleBinW dp) as [ret size num|msg] eqn:E;
            [destruct (ret =? 0); cbn; [exact (Hplatform _ _ _ _ E) | lia] | cbn; lia]
      end.
  - destruct (special_is item "developer_mode").
    + pose proof (junk_drives_grows DEVELOPER_CLEAN_RULES fs time_now
                    (AGE_THRESHOLD_DAYS * 24 * 3600)
                    (if String.eqb drive "ALL" then get_available_drives else [drive]) fl
                    (new_result (Item.id item) (Item.name item))) as (H & _).
      exact H.
    + pose proof (scan_templates_grows get_available_drives fs drive (Item.extensions item)
                    (Item.pattern item) (Item.paths item) fl
                    (new_result (Item.id item) (Item.name item))) as (H & _).
      exact H.
Qed.

(** A property every rule's result has is a property of every entry of
    the mapping the loop leaves. *)
Lemma scan_rules_invariant (P : string -> ScanResult -> Prop) (total : nat)
    (items : list Item.t) :
  Forall (fun item => forall drive fl, P (Item.id item) (a_rule drive item fl).2) items ->
  forall index self,
    map_Forall P (results self) ->
    map_Forall P (results (some_rules total index items self)).
Proof.
  induction 1 as [|item rest Hitem Hrest IH]; intros index self Hself; [exact Hself|].
  cbn [scan_rules].
  destruct (read_cancelled (flag self)) as [[] fl1]; [exact Hself|].
  destruct (notify_fields (with_flag self fl1) (Item.name item)
              (progress_percent index total)) as (_ & _ & Nres & _).
  cbn in Nres.
  destruct (a_rule _ item _) as [fl2 result] eqn:Hrule.
  apply IH. cbn [results with_results]. rewrite Nres.
  apply map_Forall_insert_2; [|exact Hself].
  specialize (Hitem (drive (notify (with_flag self fl1) (Item.name item)
                              (progress_percent index total)))
                    (flag (notify (with_flag self fl1) (Item.name item)
                             (progress_percent index total)))).
  now rewrite Hrule in Hitem.
Qed.

(** X9: whatever the cancellation, every entry of the mapping
    [scan_all] returns is the result of a configured rule, filed under
    that rule's identifier: its [item_id] is its key, and its
    [item_name] is the name of a rule with that identifier. *)
Theorem scan_all_results_consistent (self : Scanner) (id : string) (r : ScanResult) :
  results (a_scan self) !! id = Some r ->
  item_id r = id /\
  exists item, item ∈ CLEANUP_ITEMS /\ Item.id item = id /\ item_name r = Item.name item.
Proof.
  rewrite scan_all_eq.
  destruct (notify_fields
              (some_rules (length CLEANUP_ITEMS) 0 CLEANUP_ITEMS (started self))
              "扫描完成" 100) as (_ & _ & Nres & _).
  rewrite Nres.
  apply (scan_rules_invariant
           (fun id r => item_id r = id /\
                        exists item, item ∈ CLEANUP_ITEMS /\ Item.id item = id /\
                                     item_name r = Item.name item)).
  - apply Forall_forall. intros item Hin drive' fl.
    destruct (scan_rule_identity drive' item fl) as [Hid Hname].
    split; [exact Hid|]. exists item. split_and!; [exact Hin | reflexivity | exact Hname].
  - intros i x Hix. cbn in Hix. now rewrite lookup_empty in Hix.
Qed.

(** X10: when the platform reports no negative recycle-bin size,
    [get_total_size] after [scan_all] is not negative, whatever the
    cancellation. *)
Theorem get_total_size_nonneg (self : Scanner) :
  (forall dp ret size num, SHQueryRecycleBinW dp = Returned ret size num -> 0 <= size) ->
  0 <= get_total_size (a_scan self).
Proof.
  intros Hplatform.
  assert (Hall : map_Forall (fun _ r => 0 <= total_size r) (results (a_scan self))).
  { rewrite scan_all_eq.
    destruct (notify_fields
                (some_rules (length CLEANUP_ITEMS) 0 CLEANUP_ITEMS (started self))
                "扫描完成" 100) as (_ & _ & Nres & _).
    rewrite Nres. apply scan_rules_invariant.
    - apply Forall_forall. intros item _ drive' fl. now apply scan_rule_nonneg.
    - intros i x Hix. cbn in Hix. now rewrite lookup_empty in Hix. }
  unfold get_total_size. revert Hall.
  apply (map_fold_weak_ind
           (fun acc m => map_Forall (fun _ r => 0 <= total_size r) m -> 0 <= acc)).
  - intros _. lia.
  - intros i x m acc Hi IH Hm.
    apply map_Forall_insert in Hm as [Hx Hm]; [|exact Hi].
    specialize (IH Hm). lia.
Qed.

End Invariants.

Lemma scan_all_results_consistent_witness :
  exists item, item ∈ example_rules /\ Item.id item = "temp" /\
               "临时文件" = Item.name item.
Proof.
  destruct (scan_all_results_consistent example_rules ["node_modules"] 0 ["C:"]
              example_query example_fs 100 (Scanner_init true "c:\" (Some 3%nat)) "temp"
              {| item_id := "temp"; item_name := "临时文件"; total_size := 5;
                 file_count := 1; files := ["C:\Temp\FOO.TMP"]; error := None |})
    as [_ H]; [vm_compute; reflexivity | exact H].
Defined.

Lemma get_total_size_nonneg_witness :
  0 <= get_total_size
         (scan_all example_rules ["node_modules"] 0 ["C:"] example_query example_fs 100
            (Scanner_init true "c:\" (Some 3%nat))).
Proof.
  apply get_total_size_nonneg.
  intros dp ret size num E. unfold example_query in E. injection E as <- <- <-. lia.
Defined.

(** ** Sizes of the mapping *)

Lemma fold_selected (self : Scanner) (ids : list string) :
  forall acc,
    fold_left (fun acc id =>
                 match results self !! id with
                 | Some r => acc + total_size r
                 | None => acc
                 end) ids acc =
    acc + sum_sizes (size_or_zero self <$> ids).
Proof.
  induction ids as [|id ids IH]; intros acc; cbn [fold_left fmap list_fmap].
  - unfold sum_sizes. cbn. lia.
  - rewrite IH. unfold sum_sizes, size_or_zero. cbn [fold_right].
    destruct (results self !! id); lia.
Qed.

Lemma get_selected_size_sum (self : Scanner) (ids : list string) :
  get_selected_size self ids = sum_sizes (size_or_zero self <$> ids).
Proof. unfold get_selected_size. rewrite fold_selected. lia. Qed.

Lemma sum_sizes_perm (l k : list Z) : l ≡ₚ k -> sum_sizes l = sum_sizes k.
Proof.
  unfold sum_sizes. induction 1; cbn; lia.
Qed.

(** X11: [get_selected_size] adds up the sizes of the selected
    identifiers: over a concatenation it is the sum of the two parts, an
    identifier absent from the mapping adds nothing, one that is
    present adds the [total_size] of its result, each time it is
    listed. *)
Theorem get_selected_size_composes (self : Scanner) (ids1 ids2 : list string) (id : string) :
  get_selected_size self (ids1 ++ ids2) =
    get_selected_size self ids1 + get_selected_size self ids2 /\
  (results self !! id = None ->
   get_selected_size self (id :: ids1) = get_selected_size self ids1) /\
  (forall r, results self !! id = Some r ->
   get_selected_size self (id :: ids1) = total_size r + get_selected_size self ids1).
Proof.
  rewrite !get_selected_size_sum, fmap_app, sum_sizes_app. split_and!.
  - reflexivity.
  - intros Hnone. cbn. unfold size_or_zero at 1.
    rewrite Hnone. unfold sum_sizes. cbn. reflexivity.
  - intros r Hsome. cbn. unfold size_or_zero at 1.
    rewrite Hsome. reflexivity.
Qed.

Lemma get_selected_size_composes_witness :
  let self :=
    with_results (Scanner_init false "C:" None)
      {[ "a" := count (new_result "a" "A") 40 "C:\x" ]} in
  get_selected_size self ["a"; "missing"] = 40.
Proof.
  intros self.
  destruct (get_selected_size_composes self ["missing"] [] "a") as (_ & _ & Ha).
  destruct (get_selected_size_composes self [] [] "missing") as (_ & Hmissing & _).
  rewrite (Ha (count (new_result "a" "A") 40 "C:\x")) by reflexivity.
  rewrite Hmissing by reflexivity. reflexivity.
Defined.

(** With no [cancel()] on its way, every rule gets its entry. *)
Lemma scan_all_quiet_dom (items : list Item.t) (rules : list string) (age : Z)
    (drives : list string) (query : option string -> QueryOutcome)
    (fs : string -> option node) (now : Z) (self : Scanner) :
  pending_cancel (flag self) = None ->
  dom (results (scan_all items rules age drives query fs now self)) = ids items.
Proof.
  intros Hpending. rewrite scan_all_eq.
  assert (Hq : quiet (flag (started self))) by (split; [reflexivity | exact Hpending]).
  destruct (scan_rules_run rules age drives query fs now (length items) items 0
              (started self)) as (k & _ & _ & Hdom & _ & _ & _ & Hquiet).
  destruct (Hquiet Hq) as [-> _]. rewrite take_ge in Hdom by lia.
  destruct (notify_fields
              (scan_rules rules age drives query fs now (length items) 0 items
                 (started self)) "扫描完成" 100) as (_ & _ & Nres & _).
  rewrite Nres, Hdom. cbn. set_solver.
Qed.

(** X12: selecting every identifier of the mapping once gives
    [get_total_size]. *)
Theorem get_selected_size_all (self : Scanner) (ids : list string) :
  NoDup ids ->
  (forall id, id ∈ ids <-> id ∈ dom (results self)) ->
  get_selected_size self ids = get_total_size self.
Proof.
  intros Hnodup Hids.
  assert (Hperm : ids ≡ₚ (map_to_list (results self)).*1).
  { apply NoDup_Permutation; [exact Hnodup | apply NoDup_fst_map_to_list|].
    intros id. rewrite Hids, elem_of_dom. split.
    - intros [r Hr]. apply list_elem_of_fmap. exists (id, r). split; [reflexivity|].
      now apply elem_of_map_to_list.
    - intros Hin. apply list_elem_of_fmap in Hin as ([id' r] & -> & Hin).
      exists r. now apply elem_of_map_to_list. }
  rewrite get_selected_size_sum.
  rewrite (sum_sizes_perm _ _ (fmap_Permutation (size_or_zero self) _ _ Hperm)).
  unfold get_total_size. rewrite map_fold_foldr.
  assert (Hlist : Forall (fun ir => results self !! ir.1 = Some ir.2)
                    (map_to_list (results self))).
  { apply Forall_forall. intros [i r] Hin. now apply elem_of_map_to_list. }
  clear Hperm Hnodup Hids. induction Hlist as [|[i r] l Hir Hl IH]; [reflexivity|].
  cbn [fmap list_fmap foldr fst snd uncurry] in *.
  unfold sum_sizes in *. cbn [fold_right]. rewrite IH.
  unfold size_or_zero. cbn [fst snd] in Hir. rewrite Hir. lia.
Qed.

Lemma get_selected_size_all_witness :
  let self :=
    scan_all example_rules ["node_modules"] 0 ["C:"] example_query example_fs 100
      (Scanner_init true "c:\" None) in
  get_selected_size self ["dev"; "temp"; "recycle_bin"] = get_total_size self.
Proof.
  intros self. apply get_selected_size_all.
  - apply (bool_decide_unpack _). vm_compute. exact I.
  - intros id.
    assert (Hdom : dom (results self) = ids example_rules).
    { exact (scan_all_quiet_dom example_rules ["node_modules"] 0 ["C:"]
               example_query example_fs 100 (Scanner_init true "c:\" None) eq_refl). }
    rewrite Hdom. unfold ids, example_rules. cbn.
    rewrite !elem_of_cons, elem_of_nil. set_solver.
Defined.

(** ** The drive selector and the drives *)

Lemma upper_char_idem (c : ascii) : Str.upper_char (Str.upper_char c) = Str.upper_char c.
Proof. destruct c as [[] [] [] [] [] [] [] []]; reflexivity. Qed.

Lemma upper_char_backslash (c : ascii) :
  Ascii.eqb (Str.upper_char c) "\" = Ascii.eqb c "\".
Proof. destruct c as [[] [] [] [] [] [] [] []]; reflexivity. Qed.

Lemma upper_idem (s : string) : Str.upper (Str.upper s) = Str.upper s.
Proof.
  unfold Str.upper. induction s as [|c s IH]; cbn [Str.map]; [reflexivity|].
  now rewrite upper_char_idem, IH.
Qed.

Lemma upper_remove_backslash (s : string) :
  Str.upper (Str.remove_char "\" s) = Str.remove_char "\" (Str.upper s).
Proof.
  unfold Str.upper. induction s as [|c s IH]; [reflexivity|].
  cbn [Str.map Str.remove_char]. rewrite upper_char_backslash.
  destruct (Ascii.eqb c "\"); [exact IH|]. cbn [Str.map]. now rewrite IH.
Qed.

Lemma remove_char_idem (c : ascii) (s : string) :
  Str.remove_char c (Str.remove_char c s) = Str.remove_char c s.
Proof.
  induction s as [|a s IH]; [reflexivity|]. cbn [Str.remove_char].
  destruct (Ascii.eqb a c) eqn:E; [exact IH|]. cbn [Str.remove_char]. now rewrite E, IH.
Qed.

Lemma remove_char_absent (c : ascii) (s : string) :
  Str.contains (Str.remove_char c s) (String c EmptyString) = false.
Proof.
  induction s as [|a s IH]; [reflexivity|]. cbn [Str.remove_char].
  destruct (Ascii.eqb a c) eqn:E; [exact IH|].
  cbn [Str.contains Str.startswith]. rewrite IH, Ascii.eqb_sym, E. reflexivity.
Qed.

(** X13: [Scanner.__init__] normalises the drive selector: the stored
    selector holds no backslash and no lower-case ASCII letter, and
    normalising it again changes nothing, so [c:\], [c:] and [C:] name
    the same session; the scanner starts with no results and with the
    flag clear. *)
Theorem Scanner_init_normalises (callback : bool) (drive' : string) (pending : option nat) :
  Str.contains (drive (Scanner_init callback drive' pending)) "\" = false /\
  Str.upper (drive (Scanner_init callback drive' pending)) =
    drive (Scanner_init callback drive' pending) /\
  Scanner_init callback (drive (Scanner_init callback drive' pending)) pending =
    Scanner_init callback drive' pending /\
  results (Scanner_init callback drive' pending) = ∅ /\
  _cancelled (flag (Scanner_init callback drive' pending)) = false.
Proof.
  unfold Scanner_init. cbn [drive results flag _cancelled]. split_and!.
  - apply remove_char_absent.
  - now rewrite upper_remove_backslash, upper_idem.
  - f_equal. now rewrite upper_remove_backslash, upper_idem, remove_char_idem.
  - reflexivity.
  - reflexivity.
Qed.

Lemma insert_sorted_perm (x : string) (l : list string) : insert_sorted x l ≡ₚ x :: l.
Proof.
  induction l as [|y t IH]; cbn [insert_sorted]; [reflexivity|].
  destruct (String.leb x y); [reflexivity|].
  rewrite IH. apply Permutation_swap.
Qed.

Lemma sorted_perm (l : list string) : sorted l ≡ₚ l.
Proof.
  unfold sorted. induction l as [|x l IH]; cbn [fold_right]; [reflexivity|].
  now rewrite insert_sorted_perm, IH.
Qed.

Lemma insert_sorted_Sorted (x : string) (l : list string) :
  Sorted (fun a b => String.leb a b = true) l ->
  Sorted (fun a b => String.leb a b = true) (insert_sorted x l).
Proof.
  induction 1 as [|y t Ht IH Hy]; cbn [insert_sorted].
  - repeat constructor.
  - destruct (String.leb x y) eqn:E.
    + constructor; [constructor; assumption | constructor; exact E].
    + constructor; [exact IH|].
      assert (Hyx : String.leb y x = true).
      { destruct (String.leb_total x y) as [H|H]; [congruence | exact H]. }
      destruct t as [|z t]; cbn [insert_sorted].
      * constructor. exact Hyx.
      * destruct (String.leb x z); constructor; [exact Hyx|].
        now inversion Hy.
Qed.

Lemma sorted_Sorted (l : list string) :
  Sorted (fun a b => String.leb a b = true) (sorted l).
Proof.
  unfold sorted. induction l as [|x l IH]; cbn [fold_right]; [constructor|].
  now apply insert_sorted_Sorted.
Qed.

(** X14: [get_available_drives] returns, in ascending order, the devices
    of the partitions that are fixed or have a file system, each with
    its backslashes removed and as often as it is listed; when the
    partitions cannot be read, it returns the single drive [C:]. *)
Theorem get_available_drives_sorted (parts : list partition) :
  Scanner_get_available_drives None = ["C:"] /\
  Sorted (fun a b => String.leb a b = true) (Scanner_get_available_drives (Some parts)) /\
  Scanner_get_available_drives (Some parts) ≡ₚ
    (fun part => Str.remove_char "\" (device part)) <$> filter (fun part => is_local part = true) parts /\
  (forall d, d ∈ Scanner_get_available_drives (Some parts) ->
             Str.contains d "\" = false).
Proof.
  assert (Hperm : Scanner_get_available_drives (Some parts) ≡ₚ
            (fun part => Str.remove_char "\" (device part)) <$>
              filter (fun part => is_local part = true) parts).
  { unfold Scanner_get_available_drives. rewrite sorted_perm.
    induction parts as [|part parts IH]; [reflexivity|].
    cbn [List.filter]. rewrite filter_cons.
    destruct (is_local part) eqn:E.
    - rewrite decide_True by reflexivity. cbn. now rewrite IH.
    - rewrite decide_False by discriminate. exact IH. }
  split_and!.
  - reflexivity.
  - apply sorted_Sorted.
  - exact Hperm.
  - intros d Hd. rewrite Hperm in Hd.
    apply list_elem_of_fmap in Hd as (part & -> & _). apply remove_char_absent.
Qed.

(** X15: a drive whose device is the drive's name followed by one
    backslash comes back from [get_available_drives] as the name, and
    the root the scanners look at, the name followed by a backslash, is
    the device again. *)
Theorem get_available_drives_round_trip (parts : list partition) (part : partition)
    (name : string) :
  part ∈ parts ->
  is_local part = true ->
  device part = name +:+ "\" ->
  Str.contains name "\" = false ->
  name ∈ Scanner_get_available_drives (Some parts) /\ name +:+ "\" = device part.
Proof.
  intros Hin Hlocal Hdevice Hname. split; [|now rewrite Hdevice].
  unfold Scanner_get_available_drives. rewrite sorted_perm.
  apply list_elem_of_In, in_map_iff. exists part. split.
  - rewrite Hdevice. clear Hdevice Hin Hlocal.
    induction name as [|a name IH]; [reflexivity|].
    change (String a name +:+ "\") with (String a (name +:+ "\")).
    cbn [Str.remove_char]. cbn [Str.contains Str.startswith] in Hname.
    apply orb_false_iff in Hname as [Ha Hname].
    rewrite andb_true_r, Ascii.eqb_sym in Ha. rewrite Ha. f_equal. now apply IH.
  - apply filter_In. split; [now apply list_elem_of_In | exact Hlocal].
Qed.

Lemma get_available_drives_round_trip_witness :
  let parts := [mkPartition "D:\" "rw,fixed" "NTFS"; mkPartition "E:\" "cdrom" "";
                mkPartition "C:\" "rw,fixed" "NTFS"] in
  Scanner_get_available_drives (Some parts) = ["C:"; "D:"] /\
  "C:" ∈ Scanner_get_available_drives (Some parts).
Proof.
  intros parts. split; [reflexivity|].
  destruct (get_available_drives_round_trip parts (mkPartition "C:\" "rw,fixed" "NTFS") "C:")
    as [H _]; try reflexivity; [|exact H].
  unfold parts. rewrite !elem_of_cons. right. right. now left.
Defined.

(** ** The recycle-bin probe and cancellation *)

(** X16: the result of the recycle-bin probe has no error exactly when
    the query returned the status zero; when the call raises, the error
    is the text of the exception; whenever an error is set the size and
    the count are zero; and the result never lists a path. *)
Theorem scan_recycle_bin_error (query : option string -> QueryOutcome)
    (id name : string) (drive_path : option string) :
  (error (_scan_recycle_bin query id name drive_path) = None <->
   exists size num, query drive_path = Returned 0 size num) /\
  (error (_scan_recycle_bin query id name drive_path) <> None ->
   total_size (_scan_recycle_bin query id name drive_path) = 0 /\
   file_count (_scan_recycle_bin query id name drive_path) = 0) /\
  (forall msg, query drive_path = Raised msg ->
   error (_scan_recycle_bin query id name drive_path) = Some msg) /\
  files (_scan_recycle_bin query id name drive_path) = [] /\
  item_id (_scan_recycle_bin query id name drive_path) = id /\
  item_name (_scan_recycle_bin query id name drive_path) = name.
Proof.
  unfold _scan_recycle_bin.
  destruct (query drive_path) as [ret size num|msg] eqn:E.
  - destruct (ret =? 0) eqn:Hret; cbn.
    + apply Z.eqb_eq in Hret. subst ret. split_and!; try reflexivity.
      * split; [intros _; eauto | reflexivity].
      * intros H. now contradiction H.
      * intros msg H. discriminate H.
    + apply Z.eqb_neq in Hret. split_and!; try reflexivity.
      * split; [discriminate|]. intros (size' & num' & H). congruence.
      * intros _. split; reflexivity.
      * intros msg H. discriminate H.
  - cbn. split_and!; try reflexivity.
    + split; [discriminate|]. intros (size' & num' & H). discriminate H.
    + intros _. split; reflexivity.
    + intros msg' H. congruence.
Qed.

Lemma scan_recycle_bin_error_witness :
  error (_scan_recycle_bin (fun _ => Raised "no shell32") "recycle_bin" "回收站" None)
    = Some "no shell32" /\
  total_size (_scan_recycle_bin (fun _ => Raised "no shell32") "recycle_bin" "回收站" None)
    = 0.
Proof.
  destruct (scan_recycle_bin_error (fun _ => Raised "no shell32") "recycle_bin" "回收站" None)
    as (_ & Hzero & Hraised & _).
  split; [now apply Hraised|]. apply Hzero. rewrite (Hraised "no shell32" eq_refl).
  discriminate.
Defined.

Lemma depth_search_cancelled (rules : list string) (n : node) (path : string)
    (now threshold : Z) (skips : list string) (depth max_depth : Z)
    (fl : Flag) (result : ScanResult) :
  _cancelled fl = true ->
  _depth_search rules n path now threshold skips depth max_depth fl result = (fl, result).
Proof.
  intros Hc. rewrite depth_search_eq, (read_cancelled_set fl Hc). reflexivity.
Qed.

(** X17: once the flag is set the scanners return at once: a traversal
    leaves the result it was given untouched, a rule of the generic or
    of the developer-junk kind returns an empty result, and the flag
    stays set. *)
Theorem cancelled_scans_do_nothing (rules : list string) (age : Z) (drives : list string)
    (fs : string -> option node) (now threshold : Z) (skips : list string)
    (depth max_depth : Z) (n : node) (path drive : string)
    (extensions : option (list string)) (pattern : option string)
    (item : Item.t) (fl : Flag) (result : ScanResult) :
  _cancelled fl = true ->
  _scan_directory n path extensions pattern fl result = (fl, result) /\
  _depth_search rules n path now threshold skips depth max_depth fl result = (fl, result) /\
  _scan_item drives fs drive item fl = (fl, new_result (Item.id item) (Item.name item)) /\
  _scan_developer_junk rules age drives fs now drive (Item.id item) (Item.name item) fl =
    (fl, new_result (Item.id item) (Item.name item)).
Proof.
  intros Hc. split_and!.
  - now apply scan_directory_cancelled.
  - now apply depth_search_cancelled.
  - destruct (scan_templates_runs drives fs drive item (Item.paths item) fl
                (new_result (Item.id item) (Item.name item))) as [H _].
    exact (H Hc).
  - destruct (junk_drives_runs rules fs now (age * 24 * 3600)
                (if String.eqb drive "ALL" then drives else [drive]) fl
                (new_result (Item.id item) (Item.name item))) as [H _].
    exact (H Hc).
Qed.

Lemma cancelled_scans_do_nothing_witness :
  _scan_item ["C:"] example_fs "C:" temp_rule (mkFlag true None) =
  (mkFlag true None, new_result "temp" "临时文件").
Proof.
  destruct (cancelled_scans_do_nothing [] 30 ["C:"] example_fs 0 0 [] 0 6 Other "C:\" "C:"
              None None temp_rule (mkFlag true None) (new_result "x" "X") eq_refl)
    as (_ & _ & H & _).
  exact H.
Defined.

Lemma get_available_drives_sorted_witness :
  Str.contains "D:" "\" = false.
Proof.
  destruct (get_available_drives_sorted [mkPartition "D:\" "rw,fixed" "NTFS"])
    as (_ & _ & _ & H).
  apply H. vm_compute. left.
Defined.

(** ** The progress of a run *)

Lemma steady_200 (n i : nat) :
  (n <= 200)%nat -> (i < n)%nat ->
  0 <= progress_percent i n <= 99 /\ progress_percent i n <= progress_percent (S i) n.
Proof.
  intros Hn Hi.
  assert (Hall : forallb steady (seq 0 201) = true) by (vm_compute; reflexivity).
  rewrite forallb_forall in Hall.
  assert (Hin : In n (seq 0 201)) by (apply in_seq; lia).
  specialize (Hall n Hin). unfold steady in Hall. rewrite forallb_forall in Hall.
  assert (Hin' : In i (seq 0 n)) by (apply in_seq; lia).
  specialize (Hall i Hin'). unfold steady_at in Hall.
  apply andb_true_iff in Hall as [Hall H3]. apply andb_true_iff in Hall as [H1 H2].
  apply Z.leb_le in H1, H2, H3. lia.
Qed.

Lemma notifications_steady (n : nat) (items : list Item.t) :
  (n <= 200)%nat ->
  forall i, (i + length items <= n)%nat ->
    Forall (fun p => 0 <= p <= 99) ((notifications n i items).*2) /\
    Sorted Z.le ((notifications n i items).*2).
Proof.
  intros Hn. induction items as [|item rest IH]; intros i Hi; cbn [notifications].
  - split; constructor.
  - cbn [length] in Hi. destruct (IH (S i)) as [Hrange Hsorted]; [lia|].
    destruct (steady_200 n i Hn) as [Hp Hnext]; [lia|].
    cbn [fmap list_fmap snd]. split; [constructor; assumption|].
    constructor; [exact Hsorted|].
    destruct rest as [|item' rest']; cbn [notifications fmap list_fmap snd];
      constructor. exact Hnext.
Qed.

Lemma sorted_snoc (l : list Z) (y : Z) :
  Sorted Z.le l -> Forall (fun x => x <= y) l -> Sorted Z.le (l ++ [y]).
Proof.
  induction 1 as [|x l Hl IH Hx]; intros Hall; cbn [app].
  - repeat constructor.
  - apply Forall_cons in Hall as [Hxy Hall]. constructor; [now apply IH|].
    destruct l as [|z l]; cbn [app]; constructor; [exact Hxy | now inversion Hx].
Qed.

Section Progress.
Variable CLEANUP_ITEMS : list Item.t.
Variable DEVELOPER_CLEAN_RULES : list string.
Variable AGE_THRESHOLD_DAYS : Z.
Variable get_available_drives : list string.
Variable SHQueryRecycleBinW : option string -> QueryOutcome.
Variable fs : string -> option node.
Variable time_now : Z.

(** X18: with up to 200 rules, the percentages [scan_all] reports in one
    run lie between 0 and 100 and never decrease, whatever the
    cancellation; without a callback nothing is reported. *)
Theorem scan_all_progress_steady (self : Scanner) :
  (length CLEANUP_ITEMS <= 200)%nat ->
  exists calls : list (string * Z),
    progress_calls
      (scan_all CLEANUP_ITEMS DEVELOPER_CLEAN_RULES AGE_THRESHOLD_DAYS get_available_drives
         SHQueryRecycleBinW fs time_now self) = progress_calls self ++ calls /\
    Forall (fun p => 0 <= p <= 100) (calls.*2) /\
    Sorted Z.le (calls.*2) /\
    (progress_callback self = false -> calls = []).
Proof.
  intros Hn. rewrite scan_all_eq.
  destruct (scan_rules_run DEVELOPER_CLEAN_RULES AGE_THRESHOLD_DAYS get_available_drives
              SHQueryRecycleBinW fs time_now (length CLEANUP_ITEMS) CLEANUP_ITEMS 0
              (started self)) as (k & Hk & Hcalls & _ & Hcb & _).
  cbn [started progress_calls progress_callback with_results with_flag] in Hcalls, Hcb.
  destruct (notify_fields
              (scan_rules DEVELOPER_CLEAN_RULES AGE_THRESHOLD_DAYS get_available_drives
                 SHQueryRecycleBinW fs time_now (length CLEANUP_ITEMS) 0 CLEANUP_ITEMS
                 (started self)) "扫描完成" 100) as (_ & _ & _ & _ & Ncalls).
  rewrite Ncalls, Hcb, Hcalls.
  destruct (progress_callback self).
  - exists (notifications (length CLEANUP_ITEMS) 0 (take k CLEANUP_ITEMS)
            ++ [("扫描完成", 100)]).
    destruct (notifications_steady (length CLEANUP_ITEMS) (take k CLEANUP_ITEMS) Hn 0)
      as [Hrange Hsorted].
    { rewrite length_take. lia. }
    rewrite fmap_app. cbn [fmap list_fmap snd]. split_and!.
    + now rewrite <- app_assoc.
    + apply Forall_app. split.
      * eapply Forall_impl; [exact Hrange|]. cbn. intros p Hp. lia.
      * constructor; [lia | constructor].
    + apply sorted_snoc; [exact Hsorted|].
      eapply Forall_impl; [exact Hrange|]. cbn. intros p Hp. lia.
    + discriminate.
  - exists []. rewrite !app_nil_r. split_and!; [reflexivity | constructor | constructor |].
    reflexivity.
Qed.

End Progress.

Lemma scan_all_progress_steady_witness :
  exists calls : list (string * Z),
    progress_calls
      (scan_all fifty_rules [] 30 ["C:"] example_query example_fs 0
         (Scanner_init true "C:" (Some 40%nat))) = calls /\
    Sorted Z.le (calls.*2).
Proof.
  destruct (scan_all_progress_steady fifty_rules [] 30 ["C:"] example_query example_fs 0
              (Scanner_init true "C:" (Some 40%nat)))
    as (calls & Hcalls & _ & Hsorted & _).
  - vm_compute. lia.
  - exists calls. split; [exact Hcalls | exact Hsorted].
Defined.
